(** * kubeSize capacity reports: the cluster and node-role aggregators

    A shallow embedding of [cmd/capacity/cluster.go] ([clusterCmd.RunE]) and
    of the node-role command ([nodeRoleCmd.RunE]), with the properties of the
    aggregation arithmetic stated and proved over it.

    Layout: Go integers and strings, the Kubernetes data the commands read,
    the aggregate record, the collaborators (client set, field selectors,
    sorting), the two commands, a model of the cluster API, the vocabulary
    of the properties and some clusters to run on; then the properties. *)

From Stdlib Require Import ZArith String Ascii List Lia.
From Stdlib Require Import Sorting.Sorted Sorting.Permutation.
From stdpp Require Import base tactics option list gmap sets strings sorting.

Local Open Scope Z_scope.
Local Open Scope string_scope.

(** ** Go's [int]

    [int] is a 64-bit two's complement integer on the platforms the tool is
    built for; [++], [+=] and [-] wrap around silently. *)
Module GoInt.

Definition MinInt : Z := - 2 ^ 63.
Definition MaxInt : Z := 2 ^ 63 - 1.

Definition in_range (z : Z) : Prop := MinInt <= z <= MaxInt.

Definition wrap (z : Z) : Z := (z + 2 ^ 63) mod 2 ^ 64 - 2 ^ 63.

Definition add (a b : Z) : Z := wrap (a + b).
Definition sub (a b : Z) : Z := wrap (a - b).

(** [len] of a slice: a slice never holds more than [MaxInt] elements, so
    [len] itself is exact. *)
Definition len {A} (l : list A) : Z := Z.of_nat (length l).

End GoInt.

(** ** Go strings: the two functions of package [strings] the code calls *)

Definition HasPrefix (s prefix : string) : bool := String.prefix prefix s.

Definition TrimPrefix (s prefix : string) : string :=
  if HasPrefix s prefix
  then String.substring (String.length prefix)
         (String.length s - String.length prefix) s
  else s.

(** ** resource.Quantity *)

(** Modelled from the spec: [resource.Quantity] of the Kubernetes API
    machinery, which the repository imports.  The spec asks for exact
    decimal addition and subtraction; a Quantity never holds a fraction
    finer than one nano-unit, so it is kept as its integer number of
    nano-units.  The zero value of the Go struct is the amount 0.  A
    Quantity is a value: assigning one copies the amount (true of the
    library as long as the amount fits its inline int64 form, which every
    amount a cluster reports does). *)
Module Quantity.

Definition t : Type := Z.

Definition zero : t := 0%Z.
Definition nano : Z := 10 ^ 9.

(** [q.Add(y)] and [q.Sub(y)], as the new value of [q]. *)
Definition Add (q y : t) : t := q + y.
Definition Sub (q y : t) : t := q - y.

(** [q.Value()]: the amount in whole units, rounded away from zero, as an
    [int64]. *)
Definition Value (q : t) : Z :=
  GoInt.wrap (Z.sgn q * ((Z.abs q + nano - 1) / nano)).

(** Whole units and thousandths, to write amounts down. *)
Definition units (n : Z) : t := n * nano.
Definition milli (n : Z) : t := n * 10 ^ 6.

End Quantity.

(** [corev1.ResourceList] is a Go map from resource name to Quantity; the
    accessors [Pods()], [Cpu()] and [Memory()] return the entry, or a zero
    Quantity when the map has none. *)
Definition ResourceList : Type := gmap string Quantity.t.

Definition Pods (rl : ResourceList) : Quantity.t := default Quantity.zero (rl !! "pods").
Definition Cpu (rl : ResourceList) : Quantity.t := default Quantity.zero (rl !! "cpu").
Definition Memory (rl : ResourceList) : Quantity.t := default Quantity.zero (rl !! "memory").

(** ** Nodes and pods, as far as the commands read them *)

Definition ConditionTrue : string := "True".
Definition PodSucceeded : string := "Succeeded".
Definition PodFailed : string := "Failed".

Record NodeCondition := {
  CondType : string;       (* condition.Type *)
  CondStatus : string;     (* condition.Status *)
}.

Record Node := {
  Name : string;
  Labels : gmap string string;
  Unschedulable : bool;               (* node.Spec.Unschedulable *)
  Conditions : list NodeCondition;    (* node.Status.Conditions *)
  Capacity : ResourceList;            (* node.Status.Capacity *)
  Allocatable : ResourceList;         (* node.Status.Allocatable *)
}.

Record Container := {
  Requests : ResourceList;            (* container.Resources.Requests *)
  Limits : ResourceList;              (* container.Resources.Limits *)
}.

Record Pod := {
  PodName : string;
  NodeName : string;                  (* pod.Spec.NodeName *)
  Phase : string;                     (* pod.Status.Phase *)
  Containers : list Container;        (* pod.Spec.Containers *)
}.

(** ** output.ClusterCapacityData *)

(** Modelled from the spec: the struct [output.ClusterCapacityData] is
    declared in [internal/output], outside the sources at hand.  Its fields
    are the ones the two commands assign; the counters are Go [int]s (they
    receive [len(...)] and [int(...)]), the amounts are Quantities. *)
Record ClusterCapacityData := {
  TotalNodeCount : Z;
  TotalReadyNodeCount : Z;
  TotalUnreadyNodeCount : Z;
  TotalUnschedulableNodeCount : Z;
  TotalPodCount : Z;
  TotalNonTermPodCount : Z;
  TotalCapacityPods : Quantity.t;
  TotalCapacityCPU : Quantity.t;
  TotalCapacityMemory : Quantity.t;
  TotalAllocatablePods : Quantity.t;
  TotalAllocatableCPU : Quantity.t;
  TotalAllocatableMemory : Quantity.t;
  TotalRequestsCPU : Quantity.t;
  TotalLimitsCPU : Quantity.t;
  TotalRequestsMemory : Quantity.t;
  TotalLimitsMemory : Quantity.t;
  TotalAvailablePods : Z;
  TotalAvailableCPU : Quantity.t;
  TotalAvailableMemory : Quantity.t;
}.

(** [new(output.ClusterCapacityData)]: every field at its zero value. *)
Definition newClusterCapacityData : ClusterCapacityData := {|
  TotalNodeCount := 0;
  TotalReadyNodeCount := 0;
  TotalUnreadyNodeCount := 0;
  TotalUnschedulableNodeCount := 0;
  TotalPodCount := 0;
  TotalNonTermPodCount := 0;
  TotalCapacityPods := Quantity.zero;
  TotalCapacityCPU := Quantity.zero;
  TotalCapacityMemory := Quantity.zero;
  TotalAllocatablePods := Quantity.zero;
  TotalAllocatableCPU := Quantity.zero;
  TotalAllocatableMemory := Quantity.zero;
  TotalRequestsCPU := Quantity.zero;
  TotalLimitsCPU := Quantity.zero;
  TotalRequestsMemory := Quantity.zero;
  TotalLimitsMemory := Quantity.zero;
  TotalAvailablePods := 0;
  TotalAvailableCPU := Quantity.zero;
  TotalAvailableMemory := Quantity.zero;
|}.

(** ** Collaborators *)

(** A Go [error], by its message.  [errors.Wrap(err, msg)] yields an error
    whose message is [msg], a colon, and the message of [err]. *)
Definition error : Type := string.

Definition Wrap (err : error) (message : string) : error :=
  message +:+ ": " +:+ err.

Inductive result (A : Type) : Type :=
  | Ok (a : A)
  | Err (e : error).
Arguments Ok {A} a.
Arguments Err {A} e.

(** What a typed [List] call of client-go hands back.  The call allocates
    the list before it issues the request, so a failed request returns an
    empty list (never nil) together with the error. *)
Inductive response (A : Type) : Type :=
  | Listed (items : list A)
  | Failed (e : error).
Arguments Listed {A} items.
Arguments Failed {A} e.

Definition Items {A} (r : response A) : list A :=
  match r with
  | Listed items => items
  | Failed _ => []
  end.

(** The client set: [CoreV1().Nodes().List(ListOptions{})] and
    [CoreV1().Pods("").List(ListOptions{FieldSelector: s})]; the empty
    selector is the one of a bare [ListOptions{}]. *)
Record Clientset := {
  NodesList : response Node;
  PodsList : string -> response Pod;
}.

(** Everything outside the two commands: [kube.CreateClientSet] and
    [fields.ParseSelector].  The commands only ever call [String()] on a
    parsed selector, so [ParseSelector] returns that string. *)
Record Kube := {
  CreateClientSet : result Clientset;
  ParseSelector : string -> result string;
}.

(** What one run of a command leaves behind: the data handed to the
    renderer ([RunE] then returns nil), or the error [RunE] returns (nothing
    is rendered).  The display flags are read from the command line and
    passed to the renderer untouched; they are left out. *)
Inductive outcome (R : Type) : Type :=
  | Rendered (data : R)
  | Aborted (e : error).
Arguments Rendered {R} data.
Arguments Aborted {R} e.

(** [sort.Strings]: ascending order of Go's string comparison, which is
    byte-wise lexicographic. *)
Definition string_le (a b : string) : Prop := (a <=? b)%string = true.

#[global] Instance string_le_dec : RelDecision string_le.
Proof. intros a b. unfold string_le. apply _. Defined.

Definition sortStrings (l : list string) : list string :=
  merge_sort string_le l.

(** ** The cluster command: [clusterCmd.RunE] *)

(** [condition.Type == "Ready" && condition.Status == corev1.ConditionTrue] *)
Definition isReadyTrue (condition : NodeCondition) : bool :=
  String.eqb (CondType condition) "Ready"
  && String.eqb (CondStatus condition) ConditionTrue.

(** The loop over [node.Status.Conditions] with its [++]. *)
Definition countReady (ready : Z) (conditions : list NodeCondition) : Z :=
  foldl (fun n condition => if isReadyTrue condition then GoInt.add n 1 else n)
        ready conditions.

(** Body of the loop over [nodes.Items] (cluster.go, lines 58-74). *)
Definition clusterNode (d : ClusterCapacityData) (node : Node) : ClusterCapacityData := {|
  TotalNodeCount := GoInt.add (TotalNodeCount d) 1;
  TotalReadyNodeCount := countReady (TotalReadyNodeCount d) (Conditions node);
  TotalUnreadyNodeCount := TotalUnreadyNodeCount d;
  TotalUnschedulableNodeCount :=
    if Unschedulable node then GoInt.add (TotalUnschedulableNodeCount d) 1
    else TotalUnschedulableNodeCount d;
  TotalPodCount := TotalPodCount d;
  TotalNonTermPodCount := TotalNonTermPodCount d;
  TotalCapacityPods := Quantity.Add (TotalCapacityPods d) (Pods (Capacity node));
  TotalCapacityCPU := Quantity.Add (TotalCapacityCPU d) (Cpu (Capacity node));
  TotalCapacityMemory := Quantity.Add (TotalCapacityMemory d) (Memory (Capacity node));
  TotalAllocatablePods := Quantity.Add (TotalAllocatablePods d) (Pods (Allocatable node));
  TotalAllocatableCPU := Quantity.Add (TotalAllocatableCPU d) (Cpu (Allocatable node));
  TotalAllocatableMemory := Quantity.Add (TotalAllocatableMemory d) (Memory (Allocatable node));
  TotalRequestsCPU := TotalRequestsCPU d;
  TotalLimitsCPU := TotalLimitsCPU d;
  TotalRequestsMemory := TotalRequestsMemory d;
  TotalLimitsMemory := TotalLimitsMemory d;
  TotalAvailablePods := TotalAvailablePods d;
  TotalAvailableCPU := TotalAvailableCPU d;
  TotalAvailableMemory := TotalAvailableMemory d;
|}.

(** Line 75: [TotalUnreadyNodeCount = TotalNodeCount - TotalReadyNodeCount]. *)
Definition clusterSetUnready (d : ClusterCapacityData) : ClusterCapacityData := {|
  TotalNodeCount := TotalNodeCount d;
  TotalReadyNodeCount := TotalReadyNodeCount d;
  TotalUnreadyNodeCount := GoInt.sub (TotalNodeCount d) (TotalReadyNodeCount d);
  TotalUnschedulableNodeCount := TotalUnschedulableNodeCount d;
  TotalPodCount := TotalPodCount d;
  TotalNonTermPodCount := TotalNonTermPodCount d;
  TotalCapacityPods := TotalCapacityPods d;
  TotalCapacityCPU := TotalCapacityCPU d;
  TotalCapacityMemory := TotalCapacityMemory d;
  TotalAllocatablePods := TotalAllocatablePods d;
  TotalAllocatableCPU := TotalAllocatableCPU d;
  TotalAllocatableMemory := TotalAllocatableMemory d;
  TotalRequestsCPU := TotalRequestsCPU d;
  TotalLimitsCPU := TotalLimitsCPU d;
  TotalRequestsMemory := TotalRequestsMemory d;
  TotalLimitsMemory := TotalLimitsMemory d;
  TotalAvailablePods := TotalAvailablePods d;
  TotalAvailableCPU := TotalAvailableCPU d;
  TotalAvailableMemory := TotalAvailableMemory d;
|}.

(** Lines 78 and 86: the two pod counts, each the [len] of a listing.  Only
    the parse of the constant selector lies between the two assignments, and
    a run that returns there renders nothing, so both are stored at once. *)
Definition clusterSetPodCounts (d : ClusterCapacityData)
    (totalPodCount nonTermPodCount : Z) : ClusterCapacityData := {|
  TotalNodeCount := TotalNodeCount d;
  TotalReadyNodeCount := TotalReadyNodeCount d;
  TotalUnreadyNodeCount := TotalUnreadyNodeCount d;
  TotalUnschedulableNodeCount := TotalUnschedulableNodeCount d;
  TotalPodCount := totalPodCount;
  TotalNonTermPodCount := nonTermPodCount;
  TotalCapacityPods := TotalCapacityPods d;
  TotalCapacityCPU := TotalCapacityCPU d;
  TotalCapacityMemory := TotalCapacityMemory d;
  TotalAllocatablePods := TotalAllocatablePods d;
  TotalAllocatableCPU := TotalAllocatableCPU d;
  TotalAllocatableMemory := TotalAllocatableMemory d;
  TotalRequestsCPU := TotalRequestsCPU d;
  TotalLimitsCPU := TotalLimitsCPU d;
  TotalRequestsMemory := TotalRequestsMemory d;
  TotalLimitsMemory := TotalLimitsMemory d;
  TotalAvailablePods := TotalAvailablePods d;
  TotalAvailableCPU := TotalAvailableCPU d;
  TotalAvailableMemory := TotalAvailableMemory d;
|}.

(** Body of the loop over [pod.Spec.Containers] (lines 90-93). *)
Definition clusterContainer (d : ClusterCapacityData) (container : Container)
    : ClusterCapacityData := {|
  TotalNodeCount := TotalNodeCount d;
  TotalReadyNodeCount := TotalReadyNodeCount d;
  TotalUnreadyNodeCount := TotalUnreadyNodeCount d;
  TotalUnschedulableNodeCount := TotalUnschedulableNodeCount d;
  TotalPodCount := TotalPodCount d;
  TotalNonTermPodCount := TotalNonTermPodCount d;
  TotalCapacityPods := TotalCapacityPods d;
  TotalCapacityCPU := TotalCapacityCPU d;
  TotalCapacityMemory := TotalCapacityMemory d;
  TotalAllocatablePods := TotalAllocatablePods d;
  TotalAllocatableCPU := TotalAllocatableCPU d;
  TotalAllocatableMemory := TotalAllocatableMemory d;
  TotalRequestsCPU := Quantity.Add (TotalRequestsCPU d) (Cpu (Requests container));
  TotalLimitsCPU := Quantity.Add (TotalLimitsCPU d) (Cpu (Limits container));
  TotalRequestsMemory := Quantity.Add (TotalRequestsMemory d) (Memory (Requests container));
  TotalLimitsMemory := Quantity.Add (TotalLimitsMemory d) (Memory (Limits container));
  TotalAvailablePods := TotalAvailablePods d;
  TotalAvailableCPU := TotalAvailableCPU d;
  TotalAvailableMemory := TotalAvailableMemory d;
|}.

(** The loop over [totalNonTermPodsList.Items] (lines 88-95). *)
Definition clusterPods (d : ClusterCapacityData) (pods : list Pod) : ClusterCapacityData :=
  foldl (fun d pod => foldl clusterContainer d (Containers pod)) d pods.

(** The selector text the command assembles at line 81. *)
Definition nonTerminatedSelector : string :=
  "status.phase!=" +:+ PodSucceeded +:+ ",status.phase!=" +:+ PodFailed.

(** [clusterCmd.RunE].  The [err] of each of the two pod listings is
    assigned and never read: line 81 overwrites the first, nothing follows
    the second; the listings' [Items] are used whatever [err] was. *)
Definition clusterRunE (k : Kube) : outcome ClusterCapacityData :=
  match CreateClientSet k with
  | Err err => Aborted (Wrap err "failed to create clientset")
  | Ok clientset =>
    match NodesList clientset with
    | Failed err => Aborted (Wrap err "failed to list nodes")
    | Listed nodes =>
      let d := foldl clusterNode newClusterCapacityData nodes in
      let d := clusterSetUnready d in
      let totalPodsList := PodsList clientset "" in
      match ParseSelector k nonTerminatedSelector with
      | Err err => Aborted (Wrap err "failed to create fieldSelector")
      | Ok fieldSelector =>
        let totalNonTermPodsList := PodsList clientset fieldSelector in
        let d := clusterSetPodCounts d (GoInt.len (Items totalPodsList))
                   (GoInt.len (Items totalNonTermPodsList)) in
        let d := clusterPods d (Items totalNonTermPodsList) in
        Rendered d
      end
    end
  end.

(** ** The node-role command: [nodeRoleCmd.RunE] *)

(** Go leaves open the order in which a [range] over a map visits the
    entries, and the order may change from one loop to the next.  A
    [Schedule] fixes it for one run: for the node at position [i] of the
    listing, how the labels are visited (line 72) and how the role set is
    visited (line 111).  A schedule only reorders: see [fair]. *)
Record Schedule := {
  labelOrder : nat -> list (string * string) -> list (string * string);
  roleOrder : nat -> list string -> list string;
}.

Definition fair (s : Schedule) : Prop :=
  (forall i l, labelOrder s i l ≡ₚ l) /\ (forall i l, roleOrder s i l ≡ₚ l).

(** The order in which the entries happen to be stored. *)
Definition inOrder : Schedule := {|
  labelOrder := fun _ l => l;
  roleOrder := fun _ l => l;
|}.

(** Body of the loop over [node.Labels] (lines 73-80): the [switch] takes
    the first case whose condition holds. *)
Definition labelRole (roles : gset string) (label : string * string) : gset string :=
  let (labelKey, labelValue) := label in
  if HasPrefix labelKey "node-role.kubernetes.io/" then
    let role := TrimPrefix labelKey "node-role.kubernetes.io/" in
    if (0 <? String.length role)%nat then roles ∪ {[ role ]} else roles
  else if String.eqb labelKey "kubernetes.io/role" && negb (String.eqb labelValue "")
  then roles ∪ {[ labelValue ]}
  else roles.

(** Lines 71-84: the role set of a node, from its labels as visited. *)
Definition nodeRoles (labels : list (string * string)) : gset string :=
  let roles := foldl labelRole ∅ labels in
  if (size roles =? 0)%nat then roles ∪ {[ "<none>" ]} else roles.

(** The four local sums of line 100, under the names the source gives them. *)
Record NodeSums := {
  totalRequestsCPU : Quantity.t;
  totalLimitssCPU : Quantity.t;
  totalRequestsMemory : Quantity.t;
  totalLimitsMemory : Quantity.t;
}.

Definition sumContainer (s : NodeSums) (container : Container) : NodeSums := {|
  totalRequestsCPU := Quantity.Add (totalRequestsCPU s) (Cpu (Requests container));
  totalLimitssCPU := Quantity.Add (totalLimitssCPU s) (Cpu (Limits container));
  totalRequestsMemory := Quantity.Add (totalRequestsMemory s) (Memory (Requests container));
  totalLimitsMemory := Quantity.Add (totalLimitsMemory s) (Memory (Limits container));
|}.

(** Lines 100-109. *)
Definition sumPods (pods : list Pod) : NodeSums :=
  foldl (fun s pod => foldl sumContainer s (Containers pod))
        {| totalRequestsCPU := Quantity.zero; totalLimitssCPU := Quantity.zero;
           totalRequestsMemory := Quantity.zero; totalLimitsMemory := Quantity.zero |}
        pods.

(** Lines 113-134: the role already has a record. *)
Definition roleAdd (nodeRoleData : ClusterCapacityData) (node : Node) (sums : NodeSums)
    (totalPodCount nonTerminatedPodCount : Z) : ClusterCapacityData :=
  let count := GoInt.add (TotalNodeCount nodeRoleData) 1 in
  let ready := countReady (TotalReadyNodeCount nodeRoleData) (Conditions node) in
  {|
  TotalNodeCount := count;
  TotalReadyNodeCount := ready;
  TotalUnreadyNodeCount := GoInt.sub count ready;
  TotalUnschedulableNodeCount :=
    if Unschedulable node then GoInt.add (TotalUnschedulableNodeCount nodeRoleData) 1
    else TotalUnschedulableNodeCount nodeRoleData;
  TotalPodCount := GoInt.add (TotalPodCount nodeRoleData) totalPodCount;
  TotalNonTermPodCount := GoInt.add (TotalNonTermPodCount nodeRoleData) nonTerminatedPodCount;
  TotalCapacityPods := Quantity.Add (TotalCapacityPods nodeRoleData) (Pods (Capacity node));
  TotalCapacityCPU := Quantity.Add (TotalCapacityCPU nodeRoleData) (Cpu (Capacity node));
  TotalCapacityMemory := Quantity.Add (TotalCapacityMemory nodeRoleData) (Memory (Capacity node));
  TotalAllocatablePods := Quantity.Add (TotalAllocatablePods nodeRoleData) (Pods (Allocatable node));
  TotalAllocatableCPU := Quantity.Add (TotalAllocatableCPU nodeRoleData) (Cpu (Allocatable node));
  TotalAllocatableMemory := Quantity.Add (TotalAllocatableMemory nodeRoleData) (Memory (Allocatable node));
  TotalRequestsCPU := Quantity.Add (TotalRequestsCPU nodeRoleData) (totalRequestsCPU sums);
  TotalLimitsCPU := Quantity.Add (TotalLimitsCPU nodeRoleData) (totalLimitssCPU sums);
  TotalRequestsMemory := Quantity.Add (TotalRequestsMemory nodeRoleData) (totalRequestsMemory sums);
  TotalLimitsMemory := Quantity.Add (TotalLimitsMemory nodeRoleData) (totalLimitsMemory sums);
  TotalAvailablePods := TotalAvailablePods nodeRoleData;
  TotalAvailableCPU := TotalAvailableCPU nodeRoleData;
  TotalAvailableMemory := TotalAvailableMemory nodeRoleData;
  |}.

(** Lines 137-159: the first node of a role.  The loop over the conditions
    assigns (it does not increment): a Ready condition with status true sets
    the ready count to 1 and the unready count to 0; nothing else touches
    the unready count, which otherwise keeps the zero of [new]. *)
Definition roleNew (node : Node) (sums : NodeSums)
    (totalPodCount nonTerminatedPodCount : Z) : ClusterCapacityData := {|
  TotalNodeCount := 1;
  TotalReadyNodeCount :=
    foldl (fun n condition => if isReadyTrue condition then 1 else n) 0 (Conditions node);
  TotalUnreadyNodeCount :=
    foldl (fun n condition => if isReadyTrue condition then 0 else n) 0 (Conditions node);
  TotalUnschedulableNodeCount := if Unschedulable node then 1 else 0;
  TotalPodCount := GoInt.add 0 totalPodCount;
  TotalNonTermPodCount := GoInt.add 0 nonTerminatedPodCount;
  TotalCapacityPods := Quantity.Add Quantity.zero (Pods (Capacity node));
  TotalCapacityCPU := Quantity.Add Quantity.zero (Cpu (Capacity node));
  TotalCapacityMemory := Quantity.Add Quantity.zero (Memory (Capacity node));
  TotalAllocatablePods := Quantity.Add Quantity.zero (Pods (Allocatable node));
  TotalAllocatableCPU := Quantity.Add Quantity.zero (Cpu (Allocatable node));
  TotalAllocatableMemory := Quantity.Add Quantity.zero (Memory (Allocatable node));
  TotalRequestsCPU := Quantity.Add Quantity.zero (totalRequestsCPU sums);
  TotalLimitsCPU := Quantity.Add Quantity.zero (totalLimitssCPU sums);
  TotalRequestsMemory := Quantity.Add Quantity.zero (totalRequestsMemory sums);
  TotalLimitsMemory := Quantity.Add Quantity.zero (totalLimitsMemory sums);
  TotalAvailablePods := 0;
  TotalAvailableCPU := Quantity.zero;
  TotalAvailableMemory := Quantity.zero;
  |}.

(** The map from role to record and the slice [roleNames]. *)
Record RoleState := {
  nodeRoleCapacityData : gmap string ClusterCapacityData;
  roleNames : list string;
}.

Definition newRoleState : RoleState :=
  {| nodeRoleCapacityData := ∅; roleNames := [] |}.

(** Body of the loop over the role set (lines 111-162). *)
Definition roleStep (node : Node) (sums : NodeSums)
    (totalPodCount nonTerminatedPodCount : Z) (st : RoleState) (role : string) : RoleState :=
  match nodeRoleCapacityData st !! role with
  | Some nodeRoleData =>
    {| nodeRoleCapacityData :=
         <[ role := roleAdd nodeRoleData node sums totalPodCount nonTerminatedPodCount ]>
           (nodeRoleCapacityData st);
       roleNames := roleNames st |}
  | None =>
    {| nodeRoleCapacityData :=
         <[ role := roleNew node sums totalPodCount nonTerminatedPodCount ]>
           (nodeRoleCapacityData st);
       roleNames := roleNames st ++ [role] |}
  end.

(** The two selector texts of lines 86 and 93. *)
Definition nodeSelector (node : Node) : string :=
  "spec.nodeName=" +:+ Name node.

Definition nodeNonTerminatedSelector (node : Node) : string :=
  "spec.nodeName=" +:+ Name node +:+ ",status.phase!=" +:+ PodSucceeded
    +:+ ",status.phase!=" +:+ PodFailed.

(** What the two pod listings of one node yield (lines 86-109): the raw pod
    count, the non-terminated pod count and the four sums. *)
Record NodePods := {
  totalPodCount : Z;
  nonTerminatedPodCount : Z;
  nodeSums : NodeSums;
}.

(** Lines 86-109.  As in the cluster command, the [err] of either pod
    listing is never read: line 93 overwrites the first, nothing follows
    the second. *)
Definition nodePods (k : Kube) (clientset : Clientset) (node : Node) : result NodePods :=
  match ParseSelector k (nodeSelector node) with
  | Err err => Err (Wrap err "failed to create fieldSelector")
  | Ok nodeFieldSelector =>
    let nodePodsList := PodsList clientset nodeFieldSelector in
    match ParseSelector k (nodeNonTerminatedSelector node) with
    | Err err => Err (Wrap err "failed to create fieldSelector")
    | Ok nonTerminatedFieldSelector =>
      let totalNonTermPodsList := PodsList clientset nonTerminatedFieldSelector in
      Ok {| totalPodCount := GoInt.len (Items nodePodsList);
            nonTerminatedPodCount := GoInt.len (Items totalNonTermPodsList);
            nodeSums := sumPods (Items totalNonTermPodsList) |}
    end
  end.

(** Body of the loop over [nodes.Items] (lines 69-164), for the node at
    position [i] of the listing. *)
Definition nodeRoleNode (k : Kube) (clientset : Clientset) (s : Schedule)
    (i : nat) (st : RoleState) (node : Node) : result RoleState :=
  let roles := nodeRoles (labelOrder s i (map_to_list (Labels node))) in
  match nodePods k clientset node with
  | Err err => Err err
  | Ok p =>
    Ok (foldl (roleStep node (nodeSums p) (totalPodCount p) (nonTerminatedPodCount p)) st
              (roleOrder s i (elements roles)))
  end.

Fixpoint nodeRoleLoop (k : Kube) (clientset : Clientset) (s : Schedule)
    (i : nat) (st : RoleState) (nodes : list Node) : result RoleState :=
  match nodes with
  | [] => Ok st
  | node :: rest =>
    match nodeRoleNode k clientset s i st node with
    | Err err => Err err
    | Ok st' => nodeRoleLoop k clientset s (S i) st' rest
    end
  end.

(** Lines 167-171, for one record: the derived fields.  [int(...)] of an
    [int64] changes nothing. *)
Definition roleAvailable (d : ClusterCapacityData) : ClusterCapacityData := {|
  TotalNodeCount := TotalNodeCount d;
  TotalReadyNodeCount := TotalReadyNodeCount d;
  TotalUnreadyNodeCount := TotalUnreadyNodeCount d;
  TotalUnschedulableNodeCount := TotalUnschedulableNodeCount d;
  TotalPodCount := TotalPodCount d;
  TotalNonTermPodCount := TotalNonTermPodCount d;
  TotalCapacityPods := TotalCapacityPods d;
  TotalCapacityCPU := TotalCapacityCPU d;
  TotalCapacityMemory := TotalCapacityMemory d;
  TotalAllocatablePods := TotalAllocatablePods d;
  TotalAllocatableCPU := TotalAllocatableCPU d;
  TotalAllocatableMemory := TotalAllocatableMemory d;
  TotalRequestsCPU := TotalRequestsCPU d;
  TotalLimitsCPU := TotalLimitsCPU d;
  TotalRequestsMemory := TotalRequestsMemory d;
  TotalLimitsMemory := TotalLimitsMemory d;
  TotalAvailablePods :=
    GoInt.sub (Quantity.Value (TotalAllocatablePods d)) (TotalNonTermPodCount d);
  TotalAvailableCPU := Quantity.Sub (TotalAllocatableCPU d) (TotalRequestsCPU d);
  TotalAvailableMemory := Quantity.Sub (TotalAllocatableMemory d) (TotalRequestsMemory d);
|}.

(** The loop over [roleNames] (lines 166-172).  Every name in [roleNames]
    was stored in the map when it was appended, so the lookup finds a
    record; the map holds pointers, the record is updated in place. *)
Definition deriveAvailable (m : gmap string ClusterCapacityData) (names : list string)
    : gmap string ClusterCapacityData :=
  foldl (fun m role =>
           match m !! role with
           | Some d => <[ role := roleAvailable d ]> m
           | None => m
           end) m names.

(** [nodeRoleCmd.RunE]: what the renderer receives is the map and the
    sorted [roleNames]. *)
Definition nodeRoleRunE (k : Kube) (s : Schedule)
    : outcome (gmap string ClusterCapacityData * list string) :=
  match CreateClientSet k with
  | Err err => Aborted (Wrap err "failed to create clientset")
  | Ok clientset =>
    match NodesList clientset with
    | Failed err => Aborted (Wrap err "failed to list nodes")
    | Listed nodes =>
      match nodeRoleLoop k clientset s 0 newRoleState nodes with
      | Err err => Aborted err
      | Ok st =>
        Rendered (deriveAvailable (nodeRoleCapacityData st) (roleNames st),
                  sortStrings (roleNames st))
      end
    end
  end.

(** ** A cluster that answers every query *)

(** Modelled from the spec: field selectors ([fields.ParseSelector] of the
    Kubernetes API machinery) and the pod listing of the cluster API,
    "optionally scoped by field selector expressing node name and/or pod
    phase exclusion".  A selector is a comma-separated list of terms
    [field=value], [field==value] or [field!=value]; parsing sorts the terms
    and drops empty ones, and [String()] writes them back joined by commas.
    Backslash escapes in values are not modelled. *)
Module Fields.

Inductive Operator := Equals | NotEquals.

Record Term := {
  field : string;
  operator : Operator;
  value : string;
}.

(** Cut a selector at its commas. *)
Fixpoint splitTerms (selector : string) : list string :=
  match selector with
  | EmptyString => [EmptyString]
  | String c rest =>
    if Ascii.eqb c ","%char then EmptyString :: splitTerms rest
    else match splitTerms rest with
         | [] => [String c EmptyString]
         | part :: parts => String c part :: parts
         end
  end.

Definition dropBytes (n : nat) (s : string) : string :=
  String.substring n (String.length s - n) s.

(** Cut a term at the first operator found scanning from the left, trying
    [!=], [==], [=] in that order at each position. *)
Fixpoint splitTerm (term : string) : option Term :=
  match term with
  | EmptyString => None
  | String c rest =>
    if String.prefix "!=" term
    then Some {| field := ""; operator := NotEquals; value := dropBytes 2 term |}
    else if String.prefix "==" term
    then Some {| field := ""; operator := Equals; value := dropBytes 2 term |}
    else if String.prefix "=" term
    then Some {| field := ""; operator := Equals; value := dropBytes 1 term |}
    else match splitTerm rest with
         | Some t => Some {| field := String c (field t); operator := operator t;
                             value := value t |}
         | None => None
         end
  end.

Fixpoint parseTerms (selector : string) (parts : list string) : result (list Term) :=
  match parts with
  | [] => Ok []
  | part :: parts' =>
    if String.eqb part "" then parseTerms selector parts'
    else match splitTerm part with
         | None => Err ("invalid selector: '" +:+ selector +:+ "'; can't understand '"
                          +:+ part +:+ "'")
         | Some t =>
           match parseTerms selector parts' with
           | Ok ts => Ok (t :: ts)
           | Err e => Err e
           end
         end
  end.

Definition parse (selector : string) : result (list Term) :=
  parseTerms selector (sortStrings (splitTerms selector)).

Definition termString (t : Term) : string :=
  match operator t with
  | Equals => field t +:+ "=" +:+ value t
  | NotEquals => field t +:+ "!=" +:+ value t
  end.

Fixpoint join (parts : list string) : string :=
  match parts with
  | [] => ""
  | [part] => part
  | part :: parts' => part +:+ "," +:+ join parts'
  end.

(** [fields.ParseSelector(selector)] followed by [String()]. *)
Definition ParseSelector (selector : string) : result string :=
  match parse selector with
  | Ok ts => Ok (join (map termString ts))
  | Err e => Err e
  end.

(** The pod fields a selector may name. *)
Definition podField (pod : Pod) (name : string) : option string :=
  if String.eqb name "metadata.name" then Some (PodName pod)
  else if String.eqb name "spec.nodeName" then Some (NodeName pod)
  else if String.eqb name "status.phase" then Some (Phase pod)
  else None.

Definition supported (t : Term) : bool :=
  String.eqb (field t) "metadata.name" || String.eqb (field t) "spec.nodeName"
  || String.eqb (field t) "status.phase".

Definition matches (pod : Pod) (t : Term) : bool :=
  match podField pod (field t), operator t with
  | Some v, Equals => String.eqb v (value t)
  | Some v, NotEquals => negb (String.eqb v (value t))
  | None, _ => false
  end.

Definition selects (ts : list Term) (pod : Pod) : bool :=
  forallb (matches pod) ts.

End Fields.

(** Modelled from the spec: the pod listing of the cluster API over the pods
    of the cluster, all namespaces.  A selector that does not parse, or that
    names a field pods cannot be selected by, is rejected. *)
Definition apiPodsList (pods : list Pod) (fieldSelector : string) : response Pod :=
  match Fields.parse fieldSelector with
  | Err e => Failed e
  | Ok ts =>
    if forallb Fields.supported ts
    then Listed (List.filter (Fields.selects ts) pods)
    else Failed ("field label not supported: " +:+ fieldSelector)
  end.

(** A reachable cluster in a given state: its nodes and its pods. *)
Definition apiserver (nodes : list Node) (pods : list Pod) : Kube := {|
  CreateClientSet := Ok {| NodesList := Listed nodes; PodsList := apiPodsList pods |};
  ParseSelector := Fields.ParseSelector;
|}.

(** The same cluster when every pod listing is refused (the node listing
    still answers). *)
Definition apiserverPodsRefused (nodes : list Node) (reason : error) : Kube := {|
  CreateClientSet := Ok {| NodesList := Listed nodes; PodsList := fun _ => Failed reason |};
  ParseSelector := Fields.ParseSelector;
|}.

(** ** The vocabulary of the properties *)

(** The number of Ready conditions with status True that a node carries. *)
Definition readyConditions (node : Node) : nat :=
  length (List.filter isReadyTrue (Conditions node)).

(** Their number over a node list. *)
Definition readyConditionsTotal (nodes : list Node) : nat :=
  list_sum (map readyConditions nodes).

(** All containers of a list of pods. *)
Definition containersOf (pods : list Pod) : list Container :=
  flat_map Containers pods.

(** One amount per container, summed. *)
Definition sumQuantity (f : Container -> Quantity.t) (containers : list Container) : Quantity.t :=
  foldr (fun container total => Quantity.Add (f container) total) Quantity.zero containers.

(** A pod whose phase is neither Succeeded nor Failed. *)
Definition nonTerminated (pod : Pod) : bool :=
  negb (String.eqb (Phase pod) PodSucceeded) && negb (String.eqb (Phase pod) PodFailed).

(** What the labels of a node say about its roles: [role] is a non-empty
    suffix of a label key that starts with [node-role.kubernetes.io/], or
    the non-empty value of the label [kubernetes.io/role]. *)
Definition isRole (labels : gmap string string) (role : string) : Prop :=
  role <> ""
  /\ (is_Some (labels !! ("node-role.kubernetes.io/" +:+ role))
      \/ labels !! "kubernetes.io/role" = Some role).

(** The role, if any, that one visited label adds. *)
Definition labelGives (label : string * string) (role : string) : Prop :=
  (HasPrefix label.1 "node-role.kubernetes.io/" = true
   /\ role = TrimPrefix label.1 "node-role.kubernetes.io/" /\ role <> "")
  \/ (HasPrefix label.1 "node-role.kubernetes.io/" = false
      /\ label.1 = "kubernetes.io/role" /\ label.2 <> "" /\ role = label.2).

(** Two states of the node-role command that differ at most in the order
    of [roleNames]. *)
Definition sameState (st1 st2 : RoleState) : Prop :=
  nodeRoleCapacityData st1 = nodeRoleCapacityData st2
  /\ roleNames st1 ≡ₚ roleNames st2.

(** [roleNames] lists, once each, the roles that have a record. *)
Definition namesMatch (st : RoleState) : Prop :=
  NoDup (roleNames st)
  /\ forall role, role ∈ roleNames st <-> is_Some (nodeRoleCapacityData st !! role).

(** The record a role has after a node was added to it. *)
Definition roleAfter (node : Node) (sums : NodeSums) (podCount nonTermCount : Z)
    (before : option ClusterCapacityData) : ClusterCapacityData :=
  match before with
  | Some nodeRoleData => roleAdd nodeRoleData node sums podCount nonTermCount
  | None => roleNew node sums podCount nonTermCount
  end.

(** How two results of the loop compare when only the visiting orders
    differ: the same error, or the same map with [roleNames] reordered. *)
Definition sameResult (r1 r2 : result RoleState) : Prop :=
  match r1, r2 with
  | Ok st1, Ok st2 => sameState st1 st2
  | Err e1, Err e2 => e1 = e2
  | _, _ => False
  end.

(** A schedule that visits every map backwards. *)
Definition backwards : Schedule := {|
  labelOrder := fun _ l => rev l;
  roleOrder := fun _ l => rev l;
|}.

(** Two sets of collaborators that answer alike: the same outcome of
    [CreateClientSet], the same parse of every selector text, the same node
    listing and the same pod listing for every selector.  This is what an
    unchanged cluster state offers to two consecutive runs. *)
Definition sameAnswers (k1 k2 : Kube) : Prop :=
  (forall selector, ParseSelector k1 selector = ParseSelector k2 selector)
  /\ match CreateClientSet k1, CreateClientSet k2 with
     | Ok clientset1, Ok clientset2 =>
       NodesList clientset1 = NodesList clientset2
       /\ forall selector, PodsList clientset1 selector = PodsList clientset2 selector
     | Err e1, Err e2 => e1 = e2
     | _, _ => False
     end.

(** [after] is [before] with the whole of a node added: one node, its pod
    counts, its capacity and allocatable amounts, and the request and limit
    sums of its non-terminated pods. *)
Definition addsNode (node : Node) (p : NodePods) (before after : ClusterCapacityData) : Prop :=
  TotalNodeCount after = GoInt.add (TotalNodeCount before) 1
  /\ TotalPodCount after = GoInt.add (TotalPodCount before) (totalPodCount p)
  /\ TotalNonTermPodCount after
     = GoInt.add (TotalNonTermPodCount before) (nonTerminatedPodCount p)
  /\ TotalCapacityPods after = TotalCapacityPods before + Pods (Capacity node)
  /\ TotalCapacityCPU after = TotalCapacityCPU before + Cpu (Capacity node)
  /\ TotalCapacityMemory after = TotalCapacityMemory before + Memory (Capacity node)
  /\ TotalAllocatablePods after = TotalAllocatablePods before + Pods (Allocatable node)
  /\ TotalAllocatableCPU after = TotalAllocatableCPU before + Cpu (Allocatable node)
  /\ TotalAllocatableMemory after = TotalAllocatableMemory before + Memory (Allocatable node)
  /\ TotalRequestsCPU after = TotalRequestsCPU before + totalRequestsCPU (nodeSums p)
  /\ TotalLimitsCPU after = TotalLimitsCPU before + totalLimitssCPU (nodeSums p)
  /\ TotalRequestsMemory after = TotalRequestsMemory before + totalRequestsMemory (nodeSums p)
  /\ TotalLimitsMemory after = TotalLimitsMemory before + totalLimitsMemory (nodeSums p).

(** [TotalNodeCount] summed over the role records. *)
Definition nodeCountOverRoles (m : gmap string ClusterCapacityData) : Z :=
  map_fold (fun _ d total => TotalNodeCount d + total) 0 m.

(** The sizes of the role sets summed over the nodes. *)
Definition roleMemberships (nodes : list Node) : nat :=
  list_sum (map (fun node => size (nodeRoles (map_to_list (Labels node)))) nodes).

(** ** Clusters to run the commands on *)

(** The binary suffix Gi. *)
Definition Gi : Z := 2 ^ 30.

(** The one-node scenario: capacity 4 CPU and 8Gi, allocatable 3.5 CPU and
    7Gi, Ready, schedulable; one running pod on it requesting 1 CPU and
    2Gi. *)
Definition scenarioNode : Node := {|
  Name := "node-1";
  Labels := ∅;
  Unschedulable := false;
  Conditions := [ {| CondType := "Ready"; CondStatus := "True" |} ];
  Capacity := {[ "cpu" := Quantity.units 4; "memory" := Quantity.units (8 * Gi) ]};
  Allocatable := {[ "cpu" := Quantity.milli 3500; "memory" := Quantity.units (7 * Gi) ]};
|}.

(** The pod of the scenario. *)
Definition scenarioPod : Pod := {|
  PodName := "pod-1";
  NodeName := "node-1";
  Phase := "Running";
  Containers :=
    [ {| Requests := {[ "cpu" := Quantity.units 1; "memory" := Quantity.units (2 * Gi) ]};
         Limits := ∅ |} ];
|}.

(** A node that carries the Ready condition with status True twice. *)
Definition readyTwice : Node := {|
  Name := "node-a";
  Labels := ∅;
  Unschedulable := false;
  Conditions := [ {| CondType := "Ready"; CondStatus := "True" |};
                  {| CondType := "Ready"; CondStatus := "True" |} ];
  Capacity := ∅;
  Allocatable := ∅;
|}.

(** A node that is not ready: its only condition is Ready with status
    False. *)
Definition unreadyNode : Node := {|
  Name := "node-1";
  Labels := {[ "node-role.kubernetes.io/worker" := "" ]};
  Unschedulable := false;
  Conditions := [ {| CondType := "Ready"; CondStatus := "False" |} ];
  Capacity := ∅;
  Allocatable := ∅;
|}.

(** An overcommitted node: room for one pod, 1 CPU and 1Gi, and two running
    pods on it that each request 1 CPU and 1Gi. *)
Definition smallNode : Node := {|
  Name := "node-1";
  Labels := ∅;
  Unschedulable := false;
  Conditions := [ {| CondType := "Ready"; CondStatus := "True" |} ];
  Capacity := {[ "pods" := Quantity.units 1; "cpu" := Quantity.units 1;
                 "memory" := Quantity.units Gi ]};
  Allocatable := {[ "pods" := Quantity.units 1; "cpu" := Quantity.units 1;
                    "memory" := Quantity.units Gi ]};
|}.

(** A running pod on [node-1] that requests 1 CPU and 1Gi. *)
Definition runningPod (name : string) : Pod := {|
  PodName := name;
  NodeName := "node-1";
  Phase := "Running";
  Containers :=
    [ {| Requests := {[ "cpu" := Quantity.units 1; "memory" := Quantity.units Gi ]};
         Limits := ∅ |} ];
|}.

(** A ready node with the given name and labels. *)
Definition bareNode (name : string) (labels : gmap string string) : Node := {|
  Name := name;
  Labels := labels;
  Unschedulable := false;
  Conditions := [ {| CondType := "Ready"; CondStatus := "True" |} ];
  Capacity := {[ "pods" := Quantity.units 110; "cpu" := Quantity.units 4 ]};
  Allocatable := {[ "pods" := Quantity.units 110; "cpu" := Quantity.milli 3500 ]};
|}.

(** The labels of a control-plane node in two roles (the key with the empty
    suffix names no role) and of a worker marked the older way. *)
Definition controlLabels : gmap string string :=
  {[ "node-role.kubernetes.io/master" := ""; "node-role.kubernetes.io/etcd" := "";
     "node-role.kubernetes.io/" := "ignored"; "kubernetes.io/hostname" := "cp-1" ]}.

(** The labels of the worker. *)
Definition workerLabels : gmap string string :=
  {[ "kubernetes.io/role" := "worker"; "kubernetes.io/hostname" := "w-1" ]}.

(** A worker, a control-plane node and a node without role labels, with one
    running and one finished pod. *)
Definition threeNodes : list Node :=
  [ bareNode "w-1" workerLabels; bareNode "cp-1" controlLabels; bareNode "x-1" ∅ ].

(** The cluster of [threeNodes]. *)
Definition threeNodeCluster : Kube :=
  apiserver threeNodes
    [ {| PodName := "p1"; NodeName := "cp-1"; Phase := "Running"; Containers := [] |};
      {| PodName := "p2"; NodeName := "w-1"; Phase := "Succeeded"; Containers := [] |} ].

(** ** Closed forms: what the totals are totals of *)

(** One amount per node, summed over a node list. *)
Definition sumNodes (g : Node -> Z) (nodes : list Node) : Z :=
  foldr (fun node total => g node + total) 0 nodes.

(** A node with a Ready condition of status True. *)
Definition isReady (node : Node) : bool :=
  existsb isReadyTrue (Conditions node).

(** The nodes of a list that are in a role. *)
Definition hasRole (role : string) (node : Node) : bool :=
  bool_decide (role ∈ nodeRoles (map_to_list (Labels node))).

Definition members (role : string) (nodes : list Node) : list Node :=
  List.filter (hasRole role) nodes.

(** What the two pod listings of a node yielded, when its selectors
    parsed. *)
Definition podsOf (k : Kube) (clientset : Clientset) (node : Node) : NodePods :=
  match nodePods k clientset node with
  | Ok p => p
  | Err _ => {| totalPodCount := 0; nonTerminatedPodCount := 0; nodeSums := sumPods [] |}
  end.

(** A field [f] of a record, or the absence of the record, agrees with a
    running total: the field is the total as the field's type holds it ([N]
    is the identity for an amount and the wrap-around for a Go [int]). *)
Definition represents (f : ClusterCapacityData -> Z) (N : Z -> Z)
    (record : option ClusterCapacityData) (total : option Z) : Prop :=
  match record, total with
  | Some d, Some a => f d = N a
  | None, None => True
  | _, _ => False
  end.

(** The running total of [g] over the nodes of a role, one node further. *)
Definition tally (g : Node -> Z) (role : string) (total : option Z) (node : Node) : option Z :=
  if hasRole role node then Some (default 0 total + g node) else total.

(** Both selector texts of a node parse. *)
Definition selectorsParse (k : Kube) (node : Node) : Prop :=
  (exists selector, ParseSelector k (nodeSelector node) = Ok selector)
  /\ (exists selector, ParseSelector k (nodeNonTerminatedSelector node) = Ok selector).

(** The first selector text of a node that fails to parse does so with
    [err]. *)
Definition selectorFails (k : Kube) (node : Node) (err : error) : Prop :=
  ParseSelector k (nodeSelector node) = Err err
  \/ ((exists selector, ParseSelector k (nodeSelector node) = Ok selector)
      /\ ParseSelector k (nodeNonTerminatedSelector node) = Err err).

(** A record, or its absence, fits the number of nodes counted into it:
    none without a record, [J1] after one node, [J2] after two or more. *)
Definition sized (J1 J2 : ClusterCapacityData -> Prop)
    (record : option ClusterCapacityData) (count : nat) : Prop :=
  match record with
  | None => count = 0%nat
  | Some d => (count = 1%nat /\ J1 d) \/ ((2 <= count)%nat /\ J2 d)
  end.

(** The cluster of [threeNodes] when the node listing comes back in the
    opposite order. *)
Definition reorderedCluster : Kube :=
  apiserver (rev threeNodes)
    [ {| PodName := "p1"; NodeName := "cp-1"; Phase := "Running"; Containers := [] |};
      {| PodName := "p2"; NodeName := "w-1"; Phase := "Succeeded"; Containers := [] |} ].

(** A node whose name cannot be put in a field selector. *)
Definition oddNode : Node := {|
  Name := "a,b";
  Labels := ∅;
  Unschedulable := true;
  Conditions := [];
  Capacity := ∅;
  Allocatable := ∅;
|}.

(** * Properties *)

(** ** Go integers *)

Lemma wrap_in_range z : GoInt.in_range z -> GoInt.wrap z = z.
Proof.
  unfold GoInt.in_range, GoInt.MinInt, GoInt.MaxInt, GoInt.wrap. intros Hz.
  rewrite Z.mod_small; lia.
Qed.

Lemma wrap_add_l a b : GoInt.wrap (GoInt.wrap a + b) = GoInt.wrap (a + b).
Proof.
  unfold GoInt.wrap.
  replace ((a + 2 ^ 63) mod 2 ^ 64 - 2 ^ 63 + b + 2 ^ 63)
    with ((a + 2 ^ 63) mod 2 ^ 64 + b) by lia.
  rewrite Zplus_mod_idemp_l. f_equal. f_equal. lia.
Qed.

Lemma add_wrap_l a b : GoInt.add (GoInt.wrap a) b = GoInt.wrap (a + b).
Proof. apply wrap_add_l. Qed.

(** ** Counting Ready conditions *)

Lemma countReady_wrap n conditions :
  countReady (GoInt.wrap n) conditions
  = GoInt.wrap (n + Z.of_nat (length (List.filter isReadyTrue conditions))).
Proof.
  unfold countReady. revert n.
  induction conditions as [|c cs IH]; intros n; simpl.
  - f_equal. lia.
  - destruct (isReadyTrue c); simpl.
    + rewrite add_wrap_l, IH. f_equal. lia.
    + apply IH.
Qed.

(** The node loop of the cluster command: the two counters it increments. *)
Lemma clusterNodes_counts nodes d a b :
  TotalNodeCount d = GoInt.wrap a ->
  TotalReadyNodeCount d = GoInt.wrap b ->
  TotalNodeCount (foldl clusterNode d nodes) = GoInt.wrap (a + GoInt.len nodes)
  /\ TotalReadyNodeCount (foldl clusterNode d nodes)
     = GoInt.wrap (b + Z.of_nat (readyConditionsTotal nodes)).
Proof.
  unfold GoInt.len. revert d a b.
  induction nodes as [|node nodes IH]; intros d a b Ha Hb.
  - cbn [foldl length]. rewrite Ha, Hb. unfold readyConditionsTotal. cbn [map list_sum].
    split; f_equal; simpl; lia.
  - cbn [foldl].
    destruct (IH (clusterNode d node) (a + 1)
                 (b + Z.of_nat (readyConditions node))) as [IH1 IH2].
    + simpl. rewrite Ha. apply add_wrap_l.
    + simpl. rewrite Hb. apply countReady_wrap.
    + rewrite IH1, IH2. unfold readyConditionsTotal. simpl map. simpl list_sum.
      cbn [length]. split; f_equal; lia.
Qed.

(** The node loop leaves alone the fields that belong to the pod pass and
    the derived ones. *)
Lemma clusterNodes_untouched nodes d :
  let d' := foldl clusterNode d nodes in
  TotalUnreadyNodeCount d' = TotalUnreadyNodeCount d
  /\ TotalPodCount d' = TotalPodCount d
  /\ TotalNonTermPodCount d' = TotalNonTermPodCount d
  /\ TotalRequestsCPU d' = TotalRequestsCPU d
  /\ TotalLimitsCPU d' = TotalLimitsCPU d
  /\ TotalRequestsMemory d' = TotalRequestsMemory d
  /\ TotalLimitsMemory d' = TotalLimitsMemory d
  /\ TotalAvailablePods d' = TotalAvailablePods d
  /\ TotalAvailableCPU d' = TotalAvailableCPU d
  /\ TotalAvailableMemory d' = TotalAvailableMemory d.
Proof.
  revert d. induction nodes as [|node nodes IH]; intros d; cbn [foldl].
  - repeat split.
  - specialize (IH (clusterNode d node)). cbn zeta in IH. exact IH.
Qed.

(** ** The sums of requests and limits *)

(** The pod loop of the cluster command, in closed form: it adds to the four
    sums and leaves every other field alone. *)
Lemma clusterPods_eq pods d :
  clusterPods d pods = {|
    TotalNodeCount := TotalNodeCount d;
    TotalReadyNodeCount := TotalReadyNodeCount d;
    TotalUnreadyNodeCount := TotalUnreadyNodeCount d;
    TotalUnschedulableNodeCount := TotalUnschedulableNodeCount d;
    TotalPodCount := TotalPodCount d;
    TotalNonTermPodCount := TotalNonTermPodCount d;
    TotalCapacityPods := TotalCapacityPods d;
    TotalCapacityCPU := TotalCapacityCPU d;
    TotalCapacityMemory := TotalCapacityMemory d;
    TotalAllocatablePods := TotalAllocatablePods d;
    TotalAllocatableCPU := TotalAllocatableCPU d;
    TotalAllocatableMemory := TotalAllocatableMemory d;
    TotalRequestsCPU :=
      Quantity.Add (TotalRequestsCPU d)
        (sumQuantity (fun c => Cpu (Requests c)) (containersOf pods));
    TotalLimitsCPU :=
      Quantity.Add (TotalLimitsCPU d)
        (sumQuantity (fun c => Cpu (Limits c)) (containersOf pods));
    TotalRequestsMemory :=
      Quantity.Add (TotalRequestsMemory d)
        (sumQuantity (fun c => Memory (Requests c)) (containersOf pods));
    TotalLimitsMemory :=
      Quantity.Add (TotalLimitsMemory d)
        (sumQuantity (fun c => Memory (Limits c)) (containersOf pods));
    TotalAvailablePods := TotalAvailablePods d;
    TotalAvailableCPU := TotalAvailableCPU d;
    TotalAvailableMemory := TotalAvailableMemory d;
  |}.
Proof.
  unfold clusterPods, containersOf. revert d.
  induction pods as [|pod pods IH]; intros d.
  - destruct d; simpl. unfold Quantity.Add, Quantity.zero. f_equal; lia.
  - cbn [foldl flat_map]. rewrite IH. clear IH.
    generalize (flat_map Containers pods) as rest. intros rest.
    generalize (Containers pod) as cs. intros cs. revert d.
    induction cs as [|c cs IH]; intros d.
    + reflexivity.
    + cbn [foldl app]. rewrite IH. simpl. unfold Quantity.Add. f_equal; lia.
Qed.

(** What the cluster command renders once the client set, the node listing
    and the parse of its constant selector have succeeded. *)
Lemma clusterRunE_rendered k clientset nodes fieldSelector :
  CreateClientSet k = Ok clientset ->
  NodesList clientset = Listed nodes ->
  ParseSelector k nonTerminatedSelector = Ok fieldSelector ->
  clusterRunE k =
    Rendered
      (clusterPods
         (clusterSetPodCounts
            (clusterSetUnready (foldl clusterNode newClusterCapacityData nodes))
            (GoInt.len (Items (PodsList clientset "")))
            (GoInt.len (Items (PodsList clientset fieldSelector))))
         (Items (PodsList clientset fieldSelector))).
Proof. intros H1 H2 H3. unfold clusterRunE. rewrite H1, H2, H3. reflexivity. Qed.

(** Conversely, a rendered record comes from such a run. *)
Lemma clusterRunE_inv k d :
  clusterRunE k = Rendered d ->
  exists clientset nodes fieldSelector,
    CreateClientSet k = Ok clientset
    /\ NodesList clientset = Listed nodes
    /\ ParseSelector k nonTerminatedSelector = Ok fieldSelector.
Proof.
  unfold clusterRunE. intros H.
  destruct (CreateClientSet k) as [clientset|]; [|discriminate].
  destruct (NodesList clientset) as [nodes|] eqn:Hnodes; [|discriminate].
  destruct (ParseSelector k nonTerminatedSelector) as [sel|]; [|discriminate].
  exists clientset, nodes, sel. auto.
Qed.

(** ** The cluster API model on the selectors the cluster command sends *)

Lemma filter_all {A} (f : A -> bool) (l : list A) :
  (forall x, f x = true) -> List.filter f l = l.
Proof.
  intros Hf. induction l as [|x l IH]; simpl; [reflexivity|].
  rewrite Hf, IH. reflexivity.
Qed.

Lemma apiPodsList_all pods : apiPodsList pods "" = Listed pods.
Proof.
  unfold apiPodsList.
  assert (Fields.parse "" = Ok []) as -> by (vm_compute; reflexivity).
  simpl. f_equal. apply filter_all. reflexivity.
Qed.

Lemma parse_nonTerminatedSelector :
  ParseSelector (apiserver [] []) nonTerminatedSelector
  = Ok "status.phase!=Failed,status.phase!=Succeeded".
Proof. vm_compute. reflexivity. Qed.

Lemma apiPodsList_nonTerminated pods :
  apiPodsList pods "status.phase!=Failed,status.phase!=Succeeded"
  = Listed (List.filter nonTerminated pods).
Proof.
  unfold apiPodsList.
  assert (Fields.parse "status.phase!=Failed,status.phase!=Succeeded"
          = Ok [ {| Fields.field := "status.phase"; Fields.operator := Fields.NotEquals;
                    Fields.value := "Failed" |};
                 {| Fields.field := "status.phase"; Fields.operator := Fields.NotEquals;
                    Fields.value := "Succeeded" |} ]) as ->
    by (vm_compute; reflexivity).
  assert (forallb Fields.supported
            [ {| Fields.field := "status.phase"; Fields.operator := Fields.NotEquals;
                 Fields.value := "Failed" |};
              {| Fields.field := "status.phase"; Fields.operator := Fields.NotEquals;
                 Fields.value := "Succeeded" |} ] = true) as ->
    by (vm_compute; reflexivity).
  f_equal. apply List.filter_ext. intros pod.
  unfold Fields.selects, nonTerminated, PodSucceeded, PodFailed. cbn [forallb].
  unfold Fields.matches. cbn [Fields.field Fields.operator Fields.value].
  assert (Fields.podField pod "status.phase" = Some (Phase pod)) as -> by reflexivity.
  rewrite andb_true_r. apply andb_comm.
Qed.

(** ** Ready conditions are counted one by one (cluster command) *)

(** C10.  The cluster command adds one to [TotalReadyNodeCount] for every
    condition of type Ready with status True, not once per node: whenever a
    record is rendered, the count is the number of such conditions over all
    listed nodes (as a Go [int]; exactly that number when it fits).  A node
    with two such conditions is counted twice, so that the ready count
    exceeds [TotalNodeCount]. *)
Theorem cluster_ready_counts_conditions :
  (forall k clientset nodes fieldSelector,
      CreateClientSet k = Ok clientset ->
      NodesList clientset = Listed nodes ->
      ParseSelector k nonTerminatedSelector = Ok fieldSelector ->
      exists d, clusterRunE k = Rendered d
        /\ TotalReadyNodeCount d = GoInt.wrap (Z.of_nat (readyConditionsTotal nodes))
        /\ (Z.of_nat (readyConditionsTotal nodes) <= GoInt.MaxInt ->
            TotalReadyNodeCount d = Z.of_nat (readyConditionsTotal nodes)))
  /\ (exists d, clusterRunE (apiserver [readyTwice] []) = Rendered d
        /\ TotalNodeCount d = 1 /\ TotalReadyNodeCount d = 2).
Proof.
  split.
  - intros k clientset nodes sel H1 H2 H3.
    eexists. split; [apply (clusterRunE_rendered _ _ _ _ H1 H2 H3)|].
    rewrite clusterPods_eq. cbn [TotalReadyNodeCount clusterSetPodCounts clusterSetUnready].
    destruct (clusterNodes_counts nodes newClusterCapacityData 0 0) as [_ Hready];
      [reflexivity|reflexivity|].
    rewrite Hready. split; [reflexivity|].
    intros Hfit. apply wrap_in_range.
    unfold GoInt.in_range, GoInt.MinInt, GoInt.MaxInt in *. lia.
  - eexists. split; [vm_compute; reflexivity|]. split; reflexivity.
Qed.

Lemma cluster_ready_counts_conditions_witness :
  exists d, clusterRunE (apiserver [readyTwice; readyTwice] []) = Rendered d
    /\ TotalReadyNodeCount d = 4.
Proof.
  destruct (proj1 cluster_ready_counts_conditions
              (apiserver [readyTwice; readyTwice] [])
              {| NodesList := Listed [readyTwice; readyTwice]; PodsList := apiPodsList [] |}
              [readyTwice; readyTwice]
              "status.phase!=Failed,status.phase!=Succeeded"
              eq_refl eq_refl parse_nonTerminatedSelector) as (d & Hrun & _ & Hexact).
  exists d. split; [exact Hrun|].
  rewrite Hexact; [reflexivity|]. vm_compute. discriminate.
Defined.

(** ** Raw and non-terminated pod counts (cluster command) *)

(** C8.  For every cluster state (nodes and pods) served by the cluster
    API, the cluster command renders a record in which [TotalPodCount] is
    the number of all pods, [TotalNonTermPodCount] the number of pods whose
    phase is neither Succeeded nor Failed, the first is at least the second,
    and the four request and limit sums range over the containers of the
    non-terminated pods only. *)
Theorem cluster_pod_counts nodes pods :
  exists d, clusterRunE (apiserver nodes pods) = Rendered d
    /\ TotalPodCount d = GoInt.len pods
    /\ TotalNonTermPodCount d = GoInt.len (List.filter nonTerminated pods)
    /\ TotalNonTermPodCount d <= TotalPodCount d
    /\ TotalRequestsCPU d
       = sumQuantity (fun c => Cpu (Requests c)) (containersOf (List.filter nonTerminated pods))
    /\ TotalLimitsCPU d
       = sumQuantity (fun c => Cpu (Limits c)) (containersOf (List.filter nonTerminated pods))
    /\ TotalRequestsMemory d
       = sumQuantity (fun c => Memory (Requests c)) (containersOf (List.filter nonTerminated pods))
    /\ TotalLimitsMemory d
       = sumQuantity (fun c => Memory (Limits c)) (containersOf (List.filter nonTerminated pods)).
Proof.
  eexists. split.
  - apply (clusterRunE_rendered (apiserver nodes pods) _ nodes _ eq_refl eq_refl
             parse_nonTerminatedSelector).
  - rewrite clusterPods_eq. cbn [PodsList]. rewrite apiPodsList_all, apiPodsList_nonTerminated.
    cbn -[GoInt.len sumQuantity containersOf nonTerminated List.filter].
    destruct (clusterNodes_untouched nodes newClusterCapacityData)
      as (_ & _ & _ & -> & -> & -> & -> & _).
    repeat split; try reflexivity.
    unfold GoInt.len. pose proof (List.filter_length_le nonTerminated pods). lia.
Qed.

(** ** The derived fields in the cluster command *)

(** The cluster command never assigns the three derived fields: whatever it
    renders still has them at the zero value of [new]. *)
Lemma cluster_available_unset k d :
  clusterRunE k = Rendered d ->
  TotalAvailablePods d = 0
  /\ TotalAvailableCPU d = Quantity.zero
  /\ TotalAvailableMemory d = Quantity.zero.
Proof.
  intros Hrun.
  destruct (clusterRunE_inv k d Hrun) as (clientset & nodes & sel & H1 & H2 & H3).
  rewrite (clusterRunE_rendered _ _ _ _ H1 H2 H3) in Hrun.
  injection Hrun as <-. rewrite clusterPods_eq.
  cbn [TotalAvailablePods TotalAvailableCPU TotalAvailableMemory
       clusterSetPodCounts clusterSetUnready].
  destruct (clusterNodes_untouched nodes newClusterCapacityData)
    as (_ & _ & _ & _ & _ & _ & _ & -> & -> & ->).
  repeat split.
Qed.

(** C3, at the scenario.  The cluster command renders the counts and sums
    of the scenario (one node, ready, 1 CPU requested out of 3.5
    allocatable), and the three derived fields are still zero: available CPU
    is not 2.5, available memory is not 5Gi. *)
Theorem cluster_scenario_available_zero :
  exists d, clusterRunE (apiserver [scenarioNode] [scenarioPod]) = Rendered d
    /\ TotalNodeCount d = 1
    /\ TotalReadyNodeCount d = 1
    /\ TotalUnreadyNodeCount d = 0
    /\ TotalNonTermPodCount d = 1
    /\ TotalRequestsCPU d = Quantity.units 1
    /\ Quantity.Sub (TotalAllocatableCPU d) (TotalRequestsCPU d) = Quantity.milli 2500
    /\ Quantity.Sub (TotalAllocatableMemory d) (TotalRequestsMemory d) = Quantity.units (5 * Gi)
    /\ TotalAvailableCPU d = Quantity.zero
    /\ TotalAvailableMemory d = Quantity.zero
    /\ TotalAvailablePods d = 0.
Proof.
  eexists. split; [vm_compute; reflexivity|].
  repeat split; vm_compute; reflexivity.
Qed.

(** ** Failed pod listings *)

(** The part of the error policy the code keeps: a failed node listing
    aborts either command with the wrapped error, and nothing is rendered. *)
Lemma node_listing_failure_aborts k clientset err s :
  CreateClientSet k = Ok clientset ->
  NodesList clientset = Failed err ->
  clusterRunE k = Aborted ("failed to list nodes: " +:+ err)
  /\ nodeRoleRunE k s = Aborted ("failed to list nodes: " +:+ err).
Proof.
  intros H1 H2. unfold clusterRunE, nodeRoleRunE. rewrite H1, H2. split; reflexivity.
Qed.

(** The cluster command renders a record whatever the two pod listings
    return, failures included. *)
Lemma cluster_renders_despite_pod_errors k clientset nodes fieldSelector :
  CreateClientSet k = Ok clientset ->
  NodesList clientset = Listed nodes ->
  ParseSelector k nonTerminatedSelector = Ok fieldSelector ->
  exists d, clusterRunE k = Rendered d.
Proof. intros H1 H2 H3. eexists. apply (clusterRunE_rendered _ _ _ _ H1 H2 H3). Qed.

(** C1, at a failing input.  One node is listed and every pod listing is
    refused.  Both commands return nil and hand a record to the renderer,
    with zero pods counted, instead of returning a wrapped error. *)
Theorem pod_listing_failure_still_renders :
  (exists d, clusterRunE (apiserverPodsRefused [scenarioNode] "connection refused")
             = Rendered d
     /\ TotalNodeCount d = 1 /\ TotalPodCount d = 0 /\ TotalNonTermPodCount d = 0)
  /\ (exists m d, nodeRoleRunE (apiserverPodsRefused [scenarioNode] "connection refused")
                    inOrder = Rendered (m, ["<none>"])
     /\ m !! "<none>" = Some d
     /\ TotalNodeCount d = 1 /\ TotalPodCount d = 0 /\ TotalNonTermPodCount d = 0).
Proof.
  split.
  - eexists. split; [vm_compute; reflexivity|]. repeat split.
  - eexists _, _. split; [vm_compute; reflexivity|]. repeat split.
Qed.

(** ** The order of [sort.Strings] *)

Lemma string_compare_refl s : (s ?= s)%string = Eq.
Proof.
  induction s as [|c s IH]; simpl; [reflexivity|].
  unfold Ascii.compare. rewrite N.compare_refl. exact IH.
Qed.

Lemma string_compare_trans c s1 s2 s3 :
  (s1 ?= s2)%string = c -> (s2 ?= s3)%string = c -> (s1 ?= s3)%string = c.
Proof.
  revert s2 s3. induction s1 as [|a1 s1 IH]; intros [|a2 s2] [|a3 s3]; simpl;
    try congruence.
  unfold Ascii.compare.
  destruct (N.compare_spec (N_of_ascii a1) (N_of_ascii a2)) as [H12|H12|H12];
    destruct (N.compare_spec (N_of_ascii a2) (N_of_ascii a3)) as [H23|H23|H23];
    intros H1 H2; try congruence;
    try (rewrite (proj2 (N.compare_lt_iff _ _)) by lia; congruence);
    try (rewrite (proj2 (N.compare_gt_iff _ _)) by lia; congruence).
  rewrite H12, H23, N.compare_refl. eapply IH; eassumption.
Qed.

(** [string_le] is the lexicographic order on bytes: the empty string comes
    first, and two non-empty strings compare by their first bytes, then by
    the rest. *)
Lemma string_le_lexicographic a s b t :
  string_le "" s
  /\ ~ string_le (String a s) ""
  /\ (string_le (String a s) (String b t)
      <-> (N_of_ascii a < N_of_ascii b)%N \/ (a = b /\ string_le s t)).
Proof.
  unfold string_le, String.leb. split; [destruct s; reflexivity|].
  split; [simpl; discriminate|].
  simpl. unfold Ascii.compare.
  destruct (N.compare_spec (N_of_ascii a) (N_of_ascii b)) as [Heq|Hlt|Hgt].
  - assert (a = b) as -> by (rewrite <- (ascii_N_embedding a), Heq; apply ascii_N_embedding).
    split; [auto|]. intros [Hlt|[_ Hle]]; [lia|exact Hle].
  - split; auto.
  - split; [discriminate|]. intros [Hlt|[-> _]]; lia.
Qed.

#[global] Instance string_le_total : Total string_le.
Proof. intros a b. apply String.leb_total. Qed.

#[global] Instance string_le_antisymm : AntiSymm (=) string_le.
Proof. intros a b. apply String.leb_antisym. Qed.

#[global] Instance string_le_trans : Transitive string_le.
Proof.
  intros a b c. unfold string_le, String.leb.
  destruct (a ?= b)%string eqn:Hab; [| |discriminate];
    destruct (b ?= c)%string eqn:Hbc; try discriminate; intros _ _.
  - rewrite (string_compare_trans Eq a b c Hab Hbc). reflexivity.
  - apply String.compare_eq_iff in Hab. subst b. rewrite Hbc. reflexivity.
  - apply String.compare_eq_iff in Hbc. subst c. rewrite Hab. reflexivity.
  - rewrite (string_compare_trans Lt a b c Hab Hbc). reflexivity.
Qed.

Lemma sortStrings_sorted l : StronglySorted string_le (sortStrings l).
Proof. apply StronglySorted_merge_sort; apply _. Qed.

Lemma sortStrings_perm l : sortStrings l ≡ₚ l.
Proof. apply merge_sort_Permutation. Qed.

(** Sorting forgets the order the names arrived in. *)
Lemma sortStrings_unique l1 l2 : l1 ≡ₚ l2 -> sortStrings l1 = sortStrings l2.
Proof.
  intros Hperm. apply (StronglySorted_unique string_le).
  - apply sortStrings_sorted.
  - apply sortStrings_sorted.
  - rewrite !sortStrings_perm. exact Hperm.
Qed.

(** ** Prefixes *)

Lemma substring_all s : String.substring 0 (String.length s) s = s.
Proof. induction s as [|c s IH]; simpl; [reflexivity|]. rewrite IH. reflexivity. Qed.

Lemma HasPrefix_app p r : HasPrefix (p +:+ r) p = true.
Proof.
  unfold HasPrefix. induction p as [|c p IH]; simpl.
  - destruct r; reflexivity.
  - destruct (ascii_dec c c); [exact IH|congruence].
Qed.

Lemma TrimPrefix_app p r : TrimPrefix (p +:+ r) p = r.
Proof.
  unfold TrimPrefix. rewrite HasPrefix_app.
  induction p as [|c p IH]; simpl.
  - rewrite Nat.sub_0_r. apply substring_all.
  - exact IH.
Qed.

Lemma HasPrefix_split s p : HasPrefix s p = true -> s = p +:+ TrimPrefix s p.
Proof.
  unfold HasPrefix. revert s. induction p as [|c p IH]; intros s Hp.
  - simpl. replace "" with (""%string +:+ "") at 2 by reflexivity.
    change s with ("" +:+ s) at 2. rewrite TrimPrefix_app. reflexivity.
  - destruct s as [|c' s]; simpl in Hp; [discriminate|].
    destruct (ascii_dec c c') as [->|]; [|discriminate].
    specialize (IH s Hp).
    assert (TrimPrefix (String c' s) (String c' p) = TrimPrefix s p) as ->.
    { rewrite IH at 1. change (String c' (p +:+ TrimPrefix s p))
        with (String c' p +:+ TrimPrefix s p). rewrite TrimPrefix_app. reflexivity. }
    change (String c' p +:+ TrimPrefix s p) with (String c' (p +:+ TrimPrefix s p)).
    f_equal. exact IH.
Qed.

(** ** Role derivation *)

Lemma length_pos_nonempty (s : string) : (0 <? String.length s)%nat = true <-> s <> "".
Proof.
  destruct s as [|c s].
  - split; [intros H; discriminate H|congruence].
  - split; [discriminate|reflexivity].
Qed.

Lemma elem_of_labelRole roles label role :
  role ∈ labelRole roles label <-> role ∈ roles \/ labelGives label role.
Proof.
  unfold labelRole, labelGives. destruct label as [labelKey labelValue]. cbn [fst snd].
  destruct (HasPrefix labelKey "node-role.kubernetes.io/") eqn:Hprefix.
  - destruct (0 <? String.length _)%nat eqn:Hlen.
    + apply length_pos_nonempty in Hlen. rewrite elem_of_union, elem_of_singleton.
      split; [intros [Hin0| ->]; auto|]. intros [Hin0|[(_ & -> & _)|(Hx & _)]]; auto. discriminate.
    + assert (TrimPrefix labelKey "node-role.kubernetes.io/" = "") as Hempty.
      { destruct (TrimPrefix labelKey _); [reflexivity|discriminate]. }
      split; [auto|]. intros [Hin0|[(_ & -> & Hne)|(Hx & _)]]; [auto|congruence|discriminate].
  - destruct (String.eqb labelKey "kubernetes.io/role") eqn:Hkey; cbn [andb].
    + apply String.eqb_eq in Hkey.
      destruct (String.eqb labelValue "") eqn:Hvalue; cbn [negb].
      * apply String.eqb_eq in Hvalue.
        split; [auto|]. intros [Hin0|[(Hx & _)|(_ & _ & Hne & _)]]; [auto|discriminate|congruence].
      * apply String.eqb_neq in Hvalue. rewrite elem_of_union, elem_of_singleton.
        split; [intros [Hin0| ->]; auto 6|].
        intros [Hin0|[(Hx & _)|(_ & _ & _ & ->)]]; [auto|discriminate|auto].
    + apply String.eqb_neq in Hkey.
      split; [auto|]. intros [Hin0|[(Hx & _)|(_ & Hy & _)]]; [auto|discriminate|congruence].
Qed.

Lemma elem_of_foldl_labelRole labels roles role :
  role ∈ foldl labelRole roles labels
  <-> role ∈ roles \/ exists label, label ∈ labels /\ labelGives label role.
Proof.
  revert roles. induction labels as [|label labels IH]; intros roles; cbn [foldl].
  - split; [auto|]. intros [Hin0|(label & Hin & _)]; [auto|]. inversion Hin.
  - rewrite IH, elem_of_labelRole. split.
    + intros [[Hin0|Hw]|(l & Hin & Hl)]; [auto| |].
      * right. exists label. split; [left|auto].
      * right. exists l. split; [right; auto|auto].
    + intros [Hin0|(l & Hin & Hl)]; [auto|].
      apply elem_of_cons in Hin as [-> |Hin]; [auto|]. right. exists l. auto.
Qed.

(** A visit of the label map, in any order, meets exactly the roles the
    labels spell out. *)
Lemma labelGives_isRole (labels : gmap string string) visited role :
  visited ≡ₚ map_to_list labels ->
  (exists label, label ∈ visited /\ labelGives label role) <-> isRole labels role.
Proof.
  intros Hperm. unfold isRole. split.
  - intros ([labelKey labelValue] & Hin & Hgives).
    rewrite Hperm in Hin. apply elem_of_map_to_list in Hin.
    destruct Hgives as [(Hprefix & -> & Hne)|(_ & Hkey & Hne & ->)]; cbn [fst snd] in *.
    + split; [exact Hne|]. left. rewrite <- (HasPrefix_split _ _ Hprefix). eauto.
    + subst labelKey. split; [exact Hne|]. right. exact Hin.
  - intros (Hne & [[v Hv]|Hv]).
    + exists ("node-role.kubernetes.io/" +:+ role, v). split.
      * rewrite Hperm. apply elem_of_map_to_list. exact Hv.
      * left. cbn [fst]. rewrite HasPrefix_app, TrimPrefix_app. auto.
    + exists ("kubernetes.io/role", role). split.
      * rewrite Hperm. apply elem_of_map_to_list. exact Hv.
      * right. cbn [fst snd]. auto.
Qed.

(** C5.  However the labels of a node are visited, its role set holds
    exactly the roles the labels spell out (each once: it is a set); when
    they spell out none, the set is the single role [<none>]. *)
Theorem node_roles_exact (labels : gmap string string) visited :
  visited ≡ₚ map_to_list labels ->
  (forall role,
      role ∈ nodeRoles visited
      <-> isRole labels role \/ ((forall r, ~ isRole labels r) /\ role = "<none>"))
  /\ ((forall r, ~ isRole labels r) -> nodeRoles visited = {[ "<none>" ]}).
Proof.
  intros Hperm.
  assert (forall role, role ∈ foldl labelRole ∅ visited <-> isRole labels role) as Hroles.
  { intros role. rewrite elem_of_foldl_labelRole, (labelGives_isRole labels visited role Hperm).
    rewrite elem_of_empty. tauto. }
  unfold nodeRoles.
  destruct (size (foldl labelRole ∅ visited) =? 0)%nat eqn:Hsize.
  - apply Nat.eqb_eq, size_empty_iff in Hsize.
    assert (forall r, ~ isRole labels r) as Hnone.
    { intros r Hr. apply Hroles in Hr. rewrite Hsize in Hr. set_solver. }
    split.
    + intros role. rewrite elem_of_union, elem_of_singleton, Hroles. split.
      * intros [Hin0|Hw]; auto.
      * intros [Hin0|[_ Hz]]; auto.
    + intros _. apply leibniz_equiv in Hsize. rewrite Hsize. set_solver.
  - apply Nat.eqb_neq in Hsize.
    assert (exists r, isRole labels r) as (r0 & Hr0).
    { destruct (set_choose_or_empty (foldl labelRole ∅ visited)) as [[r Hr]|Hempty].
      - exists r. apply Hroles. exact Hr.
      - apply size_empty_iff in Hempty. contradiction. }
    split.
    + intros role. rewrite Hroles. split; [auto|]. intros [Hin0|[Hnone _]]; [auto|].
      exfalso. exact (Hnone r0 Hr0).
    + intros Hnone. exfalso. exact (Hnone r0 Hr0).
Qed.

(** ** The loop over the role set *)

Lemma sameState_refl st : sameState st st.
Proof. split; reflexivity. Qed.

Lemma sameState_trans st1 st2 st3 :
  sameState st1 st2 -> sameState st2 st3 -> sameState st1 st3.
Proof. intros [H1 H2] [H3 H4]. split; [congruence|]. rewrite H2. exact H4. Qed.

Section RoleStep.

Context (node : Node) (sums : NodeSums) (podCount nonTermCount : Z).

Lemma roleStep_lookup_eq st role :
  nodeRoleCapacityData (roleStep node sums podCount nonTermCount st role) !! role
  = Some (roleAfter node sums podCount nonTermCount (nodeRoleCapacityData st !! role)).
Proof.
  unfold roleStep. destruct (nodeRoleCapacityData st !! role); cbn [nodeRoleCapacityData];
    apply lookup_insert_eq.
Qed.

Lemma roleStep_lookup_ne st role other :
  role <> other ->
  nodeRoleCapacityData (roleStep node sums podCount nonTermCount st role) !! other
  = nodeRoleCapacityData st !! other.
Proof.
  intros Hne. unfold roleStep.
  destruct (nodeRoleCapacityData st !! role); cbn [nodeRoleCapacityData];
    apply lookup_insert_ne; exact Hne.
Qed.

Lemma roleStep_same st1 st2 role :
  sameState st1 st2 ->
  sameState (roleStep node sums podCount nonTermCount st1 role)
            (roleStep node sums podCount nonTermCount st2 role).
Proof.
  intros [Hmap Hnames]. unfold roleStep. rewrite Hmap.
  destruct (nodeRoleCapacityData st2 !! role); split; cbn [nodeRoleCapacityData roleNames];
    try reflexivity; try exact Hnames.
  rewrite Hnames. reflexivity.
Qed.

Lemma roleStep_swap st x y :
  sameState
    (roleStep node sums podCount nonTermCount (roleStep node sums podCount nonTermCount st x) y)
    (roleStep node sums podCount nonTermCount (roleStep node sums podCount nonTermCount st y) x).
Proof.
  destruct (decide (x = y)) as [->|Hne]; [apply sameState_refl|].
  assert (y <> x) as Hne' by congruence.
  unfold roleStep at 1 3.
  rewrite (roleStep_lookup_ne st x y Hne), (roleStep_lookup_ne st y x Hne').
  unfold roleStep.
  destruct (nodeRoleCapacityData st !! x), (nodeRoleCapacityData st !! y);
    split; cbn [nodeRoleCapacityData roleNames];
    try (apply insert_insert_ne; congruence); try reflexivity.
  rewrite <- !app_assoc. apply Permutation_app_head. apply perm_swap.
Qed.

Lemma foldl_roleStep_perm roles1 roles2 :
  roles1 ≡ₚ roles2 ->
  forall st1 st2, sameState st1 st2 ->
    sameState (foldl (roleStep node sums podCount nonTermCount) st1 roles1)
              (foldl (roleStep node sums podCount nonTermCount) st2 roles2).
Proof.
  induction 1 as [|x l l' _ IH|x y l|l l' l'' _ IH1 _ IH2]; intros st1 st2 Hsame;
    cbn [foldl].
  - exact Hsame.
  - apply IH. apply roleStep_same. exact Hsame.
  - revert st1 st2 Hsame.
    assert (forall l st1 st2, sameState st1 st2 ->
              sameState (foldl (roleStep node sums podCount nonTermCount) st1 l)
                        (foldl (roleStep node sums podCount nonTermCount) st2 l)) as Hsame_fold.
    { intros l0. induction l0 as [|r l0 IHl]; intros a b Hab; cbn [foldl]; [exact Hab|].
      apply IHl. apply roleStep_same. exact Hab. }
    intros st1 st2 Hsame. apply Hsame_fold.
    eapply sameState_trans; [apply roleStep_swap|].
    apply roleStep_same. apply roleStep_same. exact Hsame.
  - eapply sameState_trans; [apply IH1; exact Hsame|]. apply IH2. apply sameState_refl.
Qed.

Lemma roleStep_namesMatch st role :
  namesMatch st -> namesMatch (roleStep node sums podCount nonTermCount st role).
Proof.
  intros [Hnodup Hdom]. unfold roleStep.
  destruct (nodeRoleCapacityData st !! role) as [d|] eqn:Hrole;
    split; cbn [nodeRoleCapacityData roleNames].
  - exact Hnodup.
  - intros r. rewrite Hdom. destruct (decide (role = r)) as [->|Hne].
    + rewrite lookup_insert_eq, Hrole. split; eauto.
    + rewrite lookup_insert_ne by exact Hne. reflexivity.
  - apply NoDup_app. split; [exact Hnodup|]. split; [|apply NoDup_singleton].
    intros r Hr ->%list_elem_of_singleton. apply Hdom in Hr. rewrite Hrole in Hr.
    destruct Hr as [? Hr]. discriminate Hr.
  - intros r. rewrite elem_of_app, list_elem_of_singleton, Hdom.
    destruct (decide (role = r)) as [->|Hne].
    + rewrite lookup_insert_eq. split; eauto.
    + rewrite lookup_insert_ne by exact Hne. split; [intros [Hr|Hr]; [exact Hr|congruence]|auto].
Qed.

Lemma foldl_roleStep_namesMatch roles st :
  namesMatch st -> namesMatch (foldl (roleStep node sums podCount nonTermCount) st roles).
Proof.
  revert st. induction roles as [|r roles IH]; intros st Hst; cbn [foldl]; [exact Hst|].
  apply IH. apply roleStep_namesMatch. exact Hst.
Qed.

(** Over a duplicate-free list of roles the loop touches each listed role
    once and no other. *)
Lemma foldl_roleStep_lookup roles st role :
  NoDup roles ->
  nodeRoleCapacityData (foldl (roleStep node sums podCount nonTermCount) st roles) !! role
  = if decide (role ∈ roles) then Some (roleAfter node sums podCount nonTermCount (nodeRoleCapacityData st !! role))
    else nodeRoleCapacityData st !! role.
Proof.
  intros Hnodup. revert st.
  induction Hnodup as [|r roles Hnotin _ IH]; intros st; cbn [foldl].
  - destruct (decide (role ∈ [])) as [Hin|_]; [inversion Hin|reflexivity].
  - rewrite IH. destruct (decide (role = r)) as [->|Hne].
    + destruct (decide (r ∈ roles)) as [Hin|_]; [contradiction|].
      destruct (decide (r ∈ r :: roles)) as [_|Hout]; [|exfalso; apply Hout; left].
      apply roleStep_lookup_eq.
    + rewrite (roleStep_lookup_ne st r role) by congruence.
      destruct (decide (role ∈ roles)) as [Hin|Hout];
        destruct (decide (role ∈ r :: roles)) as [Hin'|Hout']; try reflexivity.
      * exfalso. apply Hout'. right. exact Hin.
      * apply elem_of_cons in Hin' as [?|?]; [congruence|contradiction].
Qed.

End RoleStep.

(** ** The loop over the nodes *)

Lemma nodeRoles_perm visited1 visited2 :
  visited1 ≡ₚ visited2 -> nodeRoles visited1 = nodeRoles visited2.
Proof.
  intros Hperm. unfold nodeRoles.
  assert (foldl labelRole ∅ visited1 = foldl labelRole ∅ visited2) as ->; [|reflexivity].
  apply set_eq. intros role. rewrite !elem_of_foldl_labelRole.
  split; intros [Hin|(label & Hin & Hgives)]; auto; right; exists label; split; auto.
  - rewrite <- Hperm. exact Hin.
  - rewrite Hperm. exact Hin.
Qed.

(** The pod queries of a node depend on the collaborators only through the
    answers they give. *)
Lemma nodePods_answers k1 clientset1 k2 clientset2 node :
  (forall selector, ParseSelector k1 selector = ParseSelector k2 selector) ->
  (forall selector, PodsList clientset1 selector = PodsList clientset2 selector) ->
  nodePods k1 clientset1 node = nodePods k2 clientset2 node.
Proof.
  intros Hparse Hpods. unfold nodePods. rewrite !Hparse.
  destruct (ParseSelector k2 (nodeSelector node)) as [sel1|]; [|reflexivity].
  destruct (ParseSelector k2 (nodeNonTerminatedSelector node)) as [sel2|]; [|reflexivity].
  rewrite !Hpods. reflexivity.
Qed.

Lemma nodeRoleNode_fair k1 clientset1 k2 clientset2 s1 s2 i st1 st2 node :
  (forall selector, ParseSelector k1 selector = ParseSelector k2 selector) ->
  (forall selector, PodsList clientset1 selector = PodsList clientset2 selector) ->
  fair s1 -> fair s2 -> sameState st1 st2 ->
  sameResult (nodeRoleNode k1 clientset1 s1 i st1 node)
             (nodeRoleNode k2 clientset2 s2 i st2 node).
Proof.
  intros Hparse Hpods [Hlabels1 Hroles1] [Hlabels2 Hroles2] Hsame. unfold nodeRoleNode.
  rewrite (nodePods_answers k1 clientset1 k2 clientset2 node Hparse Hpods).
  destruct (nodePods k2 clientset2 node) as [p|err]; cbn [sameResult]; [|reflexivity].
  rewrite (nodeRoles_perm (labelOrder s1 i (map_to_list (Labels node)))
             (labelOrder s2 i (map_to_list (Labels node))))
    by (rewrite Hlabels1, Hlabels2; reflexivity).
  apply foldl_roleStep_perm; [|exact Hsame].
  rewrite Hroles1, Hroles2. reflexivity.
Qed.

Lemma nodeRoleLoop_fair k1 clientset1 k2 clientset2 s1 s2 nodes :
  (forall selector, ParseSelector k1 selector = ParseSelector k2 selector) ->
  (forall selector, PodsList clientset1 selector = PodsList clientset2 selector) ->
  fair s1 -> fair s2 ->
  forall i st1 st2, sameState st1 st2 ->
    sameResult (nodeRoleLoop k1 clientset1 s1 i st1 nodes)
               (nodeRoleLoop k2 clientset2 s2 i st2 nodes).
Proof.
  intros Hparse Hpods Hfair1 Hfair2.
  induction nodes as [|node nodes IH]; intros i st1 st2 Hsame; cbn [nodeRoleLoop].
  - exact Hsame.
  - pose proof (nodeRoleNode_fair k1 clientset1 k2 clientset2 s1 s2 i st1 st2 node
                  Hparse Hpods Hfair1 Hfair2 Hsame) as Hnode.
    destruct (nodeRoleNode k1 clientset1 s1 i st1 node) as [st1'|e1],
             (nodeRoleNode k2 clientset2 s2 i st2 node) as [st2'|e2];
      cbn [sameResult] in Hnode; try contradiction.
    + apply IH. exact Hnode.
    + exact Hnode.
Qed.

Lemma nodeRoleNode_namesMatch k clientset s i st node st' :
  namesMatch st -> nodeRoleNode k clientset s i st node = Ok st' -> namesMatch st'.
Proof.
  unfold nodeRoleNode. intros Hst Hnode.
  destruct (nodePods k clientset node) as [p|err]; [|discriminate].
  injection Hnode as <-. apply foldl_roleStep_namesMatch. exact Hst.
Qed.

Lemma nodeRoleLoop_namesMatch k clientset s nodes :
  forall i st st', namesMatch st -> nodeRoleLoop k clientset s i st nodes = Ok st' ->
    namesMatch st'.
Proof.
  induction nodes as [|node nodes IH]; intros i st st' Hst Hloop; cbn [nodeRoleLoop] in Hloop.
  - injection Hloop as <-. exact Hst.
  - destruct (nodeRoleNode k clientset s i st node) as [st1|] eqn:Hnode; [|discriminate].
    eapply IH; [|exact Hloop]. eapply nodeRoleNode_namesMatch; eassumption.
Qed.

Lemma newRoleState_namesMatch : namesMatch newRoleState.
Proof.
  split; cbn [newRoleState roleNames nodeRoleCapacityData]; [apply NoDup_nil_2|].
  intros role. rewrite lookup_empty. split; [intros Hin; inversion Hin|].
  intros [? Hsome]. discriminate Hsome.
Qed.

(** ** The derived fields of the role records *)

Lemma deriveAvailable_lookup names m role :
  deriveAvailable m names !! role
  = if decide (role ∈ names) then roleAvailable <$> (m !! role) else m !! role.
Proof.
  unfold deriveAvailable. revert m.
  induction names as [|name names IH]; intros m; cbn [foldl].
  - destruct (decide (role ∈ [])) as [Hin|_]; [inversion Hin|reflexivity].
  - rewrite IH. clear IH.
    assert ((match m !! name with
             | Some d => <[name := roleAvailable d]> m
             | None => m
             end) !! role
            = if decide (role = name) then roleAvailable <$> (m !! role) else m !! role)
      as Hstep.
    { destruct (decide (role = name)) as [->|Hne].
      - destruct (m !! name) as [d|] eqn:Hname.
        + rewrite lookup_insert_eq. reflexivity.
        + rewrite Hname. reflexivity.
      - destruct (m !! name); [|reflexivity]. apply lookup_insert_ne. congruence. }
    rewrite Hstep. clear Hstep.
    destruct (decide (role = name)) as [->|Hne].
    + destruct (decide (name ∈ name :: names)) as [_|Hout]; [|exfalso; apply Hout; left].
      destruct (decide (name ∈ names)); [|reflexivity].
      destruct (m !! name); reflexivity.
    + destruct (decide (role ∈ names)) as [Hin|Hout];
        destruct (decide (role ∈ name :: names)) as [Hin'|Hout']; try reflexivity.
      * exfalso. apply Hout'. right. exact Hin.
      * apply elem_of_cons in Hin' as [Heq|Hin']; [congruence|contradiction].
Qed.

(** When [roleNames] lists the roles of the map, the last loop derives the
    available fields of every record. *)
Lemma deriveAvailable_all st :
  namesMatch st ->
  deriveAvailable (nodeRoleCapacityData st) (roleNames st)
  = roleAvailable <$> nodeRoleCapacityData st.
Proof.
  intros [_ Hdom]. apply map_eq. intros role.
  rewrite deriveAvailable_lookup, lookup_fmap.
  destruct (decide (role ∈ roleNames st)) as [_|Hout]; [reflexivity|].
  destruct (nodeRoleCapacityData st !! role) eqn:Hrole; [|reflexivity].
  exfalso. apply Hout, Hdom. eauto.
Qed.

(** What a rendered node-role report is made of. *)
Lemma nodeRoleRunE_inv k s m names :
  nodeRoleRunE k s = Rendered (m, names) ->
  exists clientset nodes st,
    CreateClientSet k = Ok clientset
    /\ NodesList clientset = Listed nodes
    /\ nodeRoleLoop k clientset s 0 newRoleState nodes = Ok st
    /\ namesMatch st
    /\ m = roleAvailable <$> nodeRoleCapacityData st
    /\ names = sortStrings (roleNames st).
Proof.
  unfold nodeRoleRunE. intros Hrun.
  destruct (CreateClientSet k) as [clientset|]; [|discriminate].
  destruct (NodesList clientset) as [nodes|] eqn:Hnodes; [|discriminate].
  destruct (nodeRoleLoop k clientset s 0 newRoleState nodes) as [st|] eqn:Hloop;
    [|discriminate].
  injection Hrun as <- <-.
  assert (namesMatch st) as Hst
    by (eapply nodeRoleLoop_namesMatch; [apply newRoleState_namesMatch|exact Hloop]).
  exists clientset, nodes, st. repeat split; try assumption; try apply Hst.
  apply deriveAvailable_all. exact Hst.
Qed.

(** ** Available pods, CPU and memory per role *)

(** C4.  In every role record the node-role command renders, available
    pods is Go's [int] difference of the allocatable pods (as whole units)
    and the non-terminated pod count, which is the exact difference whenever
    that fits an [int]; available CPU and memory are the exact differences
    of the allocatable and the requested amounts.  Nothing is clamped: on an
    overcommitted node all three come out negative. *)
Theorem role_available_exact :
  (forall k s m names role d,
      nodeRoleRunE k s = Rendered (m, names) ->
      m !! role = Some d ->
      TotalAvailablePods d
      = GoInt.sub (Quantity.Value (TotalAllocatablePods d)) (TotalNonTermPodCount d)
      /\ (GoInt.in_range (Quantity.Value (TotalAllocatablePods d) - TotalNonTermPodCount d) ->
          TotalAvailablePods d
          = Quantity.Value (TotalAllocatablePods d) - TotalNonTermPodCount d)
      /\ TotalAvailableCPU d = TotalAllocatableCPU d - TotalRequestsCPU d
      /\ TotalAvailableMemory d = TotalAllocatableMemory d - TotalRequestsMemory d)
  /\ (exists m names d,
        nodeRoleRunE (apiserver [smallNode] [runningPod "a"; runningPod "b"]) inOrder
        = Rendered (m, names)
        /\ m !! "<none>" = Some d
        /\ TotalAvailablePods d = -1
        /\ TotalAvailableCPU d = Quantity.units (-1)
        /\ TotalAvailableMemory d = Quantity.units (- Gi)).
Proof.
  split.
  - intros k s m names role d Hrun Hrole.
    destruct (nodeRoleRunE_inv k s m names Hrun)
      as (clientset & nodes & st & _ & _ & _ & _ & -> & _).
    rewrite lookup_fmap in Hrole.
    destruct (nodeRoleCapacityData st !! role) as [d0|]; [|discriminate].
    injection Hrole as <-.
    cbn [roleAvailable TotalAvailablePods TotalAvailableCPU TotalAvailableMemory
         TotalAllocatablePods TotalAllocatableCPU TotalAllocatableMemory
         TotalNonTermPodCount TotalRequestsCPU TotalRequestsMemory].
    repeat split. intros Hfit. apply wrap_in_range. exact Hfit.
  - eexists _, _, _. split; [vm_compute; reflexivity|].
    split; [vm_compute; reflexivity|]. repeat split.
Qed.

Lemma role_available_exact_witness :
  exists m names d,
    nodeRoleRunE (apiserver [smallNode] [runningPod "a"; runningPod "b"]) inOrder
    = Rendered (m, names)
    /\ m !! "<none>" = Some d
    /\ TotalAvailablePods d
       = GoInt.sub (Quantity.Value (TotalAllocatablePods d)) (TotalNonTermPodCount d)
    /\ TotalAvailableCPU d = TotalAllocatableCPU d - TotalRequestsCPU d
    /\ TotalAvailableMemory d = TotalAllocatableMemory d - TotalRequestsMemory d.
Proof.
  destruct (nodeRoleRunE (apiserver [smallNode] [runningPod "a"; runningPod "b"]) inOrder)
    as [[m names]|e] eqn:Hrun; [|vm_compute in Hrun; discriminate Hrun].
  destruct (m !! "<none>") as [d|] eqn:Hrole.
  - destruct (proj1 role_available_exact _ _ m names "<none>" d Hrun Hrole)
      as (Hpods & _ & Hcpu & Hmem).
    exists m, names, d. split; [reflexivity|]. split; [exact Hrole|].
    split; [exact Hpods|]. split; [exact Hcpu|exact Hmem].
  - exfalso. vm_compute in Hrun. injection Hrun as <- _.
    vm_compute in Hrole. discriminate Hrole.
Defined.

(** ** The role names handed to the renderer *)

(** C7.  Whatever the node list, the role-name list the node-role command
    hands to the renderer is in ascending order of Go's string comparison;
    it names, once each, the roles that have a record. *)
Theorem role_names_sorted k s m names :
  nodeRoleRunE k s = Rendered (m, names) ->
  StronglySorted string_le names
  /\ NoDup names
  /\ (forall role, role ∈ names <-> is_Some (m !! role)).
Proof.
  intros Hrun.
  destruct (nodeRoleRunE_inv k s m names Hrun)
    as (clientset & nodes & st & _ & _ & _ & [Hnodup Hdom] & -> & ->).
  split; [apply sortStrings_sorted|]. split.
  - rewrite sortStrings_perm. exact Hnodup.
  - intros role. rewrite sortStrings_perm, Hdom, lookup_fmap, fmap_is_Some. reflexivity.
Qed.

(** ** Unready nodes *)

(** In the cluster command the unready count is the difference, whatever
    the node list. *)
Lemma cluster_unready_is_difference k d :
  clusterRunE k = Rendered d ->
  TotalUnreadyNodeCount d = GoInt.sub (TotalNodeCount d) (TotalReadyNodeCount d).
Proof.
  intros Hrun.
  destruct (clusterRunE_inv k d Hrun) as (clientset & nodes & sel & H1 & H2 & H3).
  rewrite (clusterRunE_rendered _ _ _ _ H1 H2 H3) in Hrun.
  injection Hrun as <-. rewrite clusterPods_eq. reflexivity.
Qed.

(** So it is for a role that already had a record when a node joins it. *)
Lemma roleAdd_unready_is_difference d node sums podCount nonTermCount :
  let d' := roleAdd d node sums podCount nonTermCount in
  TotalUnreadyNodeCount d' = GoInt.sub (TotalNodeCount d') (TotalReadyNodeCount d').
Proof. reflexivity. Qed.

(** The record made for the first node of a role has an unready count of
    zero, ready or not. *)
Lemma roleNew_unready_zero node sums podCount nonTermCount :
  TotalUnreadyNodeCount (roleNew node sums podCount nonTermCount) = 0.
Proof.
  unfold roleNew. cbn [TotalUnreadyNodeCount].
  induction (Conditions node) as [|c cs IH] using rev_ind; [reflexivity|].
  rewrite foldl_app. cbn [foldl]. destruct (isReadyTrue c); [reflexivity|exact IH].
Qed.

(** C2, at a failing input.  With one node, not ready, in role [worker],
    the node-role command renders a [worker] record with one node, no ready
    node and no unready node: the unready count is not total minus ready. *)
Theorem role_unready_not_difference :
  exists m d,
    nodeRoleRunE (apiserver [unreadyNode] []) inOrder = Rendered (m, ["worker"])
    /\ m !! "worker" = Some d
    /\ TotalNodeCount d = 1
    /\ TotalReadyNodeCount d = 0
    /\ TotalUnreadyNodeCount d = 0
    /\ TotalUnreadyNodeCount d <> GoInt.sub (TotalNodeCount d) (TotalReadyNodeCount d).
Proof.
  eexists _, _. split; [vm_compute; reflexivity|].
  split; [vm_compute; reflexivity|]. repeat split. vm_compute. discriminate.
Qed.

(** ** Determinism *)

Lemma fair_inOrder : fair inOrder.
Proof. split; intros i l; reflexivity. Qed.

Lemma fair_backwards : fair backwards.
Proof. split; intros i l; cbn; symmetry; apply Permutation_rev. Qed.

Lemma sameAnswers_refl k : sameAnswers k k.
Proof.
  split; [reflexivity|]. destruct (CreateClientSet k); [split|]; reflexivity.
Qed.

(** C9.  Two runs that get the same answers from the cluster produce the
    same outcome, whichever order Go picks for each range over a map: the
    cluster command the same record, the node-role command the same map of
    records and the same sorted role-name list (or, for both, the same
    error). *)
Theorem reports_deterministic k1 k2 s1 s2 :
  sameAnswers k1 k2 -> fair s1 -> fair s2 ->
  clusterRunE k1 = clusterRunE k2
  /\ nodeRoleRunE k1 s1 = nodeRoleRunE k2 s2.
Proof.
  intros [Hparse Hclient] Hfair1 Hfair2. unfold clusterRunE, nodeRoleRunE.
  destruct (CreateClientSet k1) as [clientset1|e1], (CreateClientSet k2) as [clientset2|e2];
    try contradiction; [|subst e2; split; reflexivity].
  destruct Hclient as [Hnodes Hpods]. rewrite Hnodes.
  destruct (NodesList clientset2) as [nodes|e]; [|split; reflexivity].
  split.
  - rewrite Hparse.
    destruct (ParseSelector k2 nonTerminatedSelector) as [sel|]; [|reflexivity].
    rewrite !Hpods. reflexivity.
  - pose proof (nodeRoleLoop_fair k1 clientset1 k2 clientset2 s1 s2 nodes
                  Hparse Hpods Hfair1 Hfair2 0%nat newRoleState newRoleState
                  (sameState_refl _)) as Hloop.
    destruct (nodeRoleLoop k1 clientset1 s1 0 newRoleState nodes) as [st1|e1] eqn:Hloop1,
             (nodeRoleLoop k2 clientset2 s2 0 newRoleState nodes) as [st2|e2] eqn:Hloop2;
      cbn [sameResult] in Hloop; try contradiction; [|congruence].
    destruct Hloop as [Hmap Hnames].
    assert (namesMatch st1) as Hst1
      by (eapply nodeRoleLoop_namesMatch; [apply newRoleState_namesMatch|exact Hloop1]).
    assert (namesMatch st2) as Hst2
      by (eapply nodeRoleLoop_namesMatch; [apply newRoleState_namesMatch|exact Hloop2]).
    rewrite (deriveAvailable_all st1 Hst1), (deriveAvailable_all st2 Hst2), Hmap.
    rewrite (sortStrings_unique _ _ Hnames). reflexivity.
Qed.

(** ** A node in several roles *)

Lemma roleAfter_addsNode node p before :
  addsNode node p (default newClusterCapacityData before)
    (roleAfter node (nodeSums p) (totalPodCount p) (nonTerminatedPodCount p) before).
Proof. destruct before as [d|]; cbn [roleAfter default]; repeat split. Qed.

Lemma nodeCountOverRoles_insert_new m role d :
  m !! role = None ->
  nodeCountOverRoles (<[role := d]> m) = TotalNodeCount d + nodeCountOverRoles m.
Proof.
  intros Hnew. unfold nodeCountOverRoles. rewrite map_fold_insert_L; [reflexivity| |exact Hnew].
  intros. lia.
Qed.

Lemma nodeCountOverRoles_insert_old m role d0 d :
  m !! role = Some d0 ->
  nodeCountOverRoles (<[role := d]> m)
  = TotalNodeCount d + nodeCountOverRoles m - TotalNodeCount d0.
Proof.
  intros Hold. rewrite <- insert_delete_eq.
  rewrite nodeCountOverRoles_insert_new by apply lookup_delete_eq.
  unfold nodeCountOverRoles at 2.
  rewrite (map_fold_delete_L _ _ role d0 m); [|intros; lia|exact Hold].
  fold (nodeCountOverRoles (delete role m)). lia.
Qed.

Lemma nodeCountOverRoles_available m :
  nodeCountOverRoles (roleAvailable <$> m) = nodeCountOverRoles m.
Proof. unfold nodeCountOverRoles. rewrite map_fold_fmap. reflexivity. Qed.

Section CountNodes.

Context (node : Node) (sums : NodeSums) (podCount nonTermCount : Z).

(** [seen] nodes went before this one: no role counts more than [seen], and
    the roles still to visit for this node are still within that bound, so
    that no count wraps. *)
Lemma foldl_roleStep_count roles seen :
  NoDup roles ->
  0 <= seen ->
  seen + 1 <= GoInt.MaxInt ->
  forall st,
    (forall role d, nodeRoleCapacityData st !! role = Some d ->
                    0 <= TotalNodeCount d <= seen + 1) ->
    (forall role d, role ∈ roles -> nodeRoleCapacityData st !! role = Some d ->
                    TotalNodeCount d <= seen) ->
    let st' := foldl (roleStep node sums podCount nonTermCount) st roles in
    nodeCountOverRoles (nodeRoleCapacityData st')
    = nodeCountOverRoles (nodeRoleCapacityData st) + Z.of_nat (length roles)
    /\ (forall role d, nodeRoleCapacityData st' !! role = Some d ->
                       0 <= TotalNodeCount d <= seen + 1).
Proof.
  intros Hnodup Hpos Hseen. induction Hnodup as [|r roles Hnotin Hnodup IH];
    intros st Hbound Htodo; cbn [foldl length].
  - split; [lia|exact Hbound].
  - destruct (IH (roleStep node sums podCount nonTermCount st r)) as [IHsum IHbound].
    + intros role d. destruct (decide (r = role)) as [<-|Hne].
      * rewrite roleStep_lookup_eq. intros [= <-].
        destruct (nodeRoleCapacityData st !! r) as [d0|] eqn:Hr; cbn [roleAfter].
        -- cbn [roleAdd TotalNodeCount]. unfold GoInt.add.
           pose proof (Hbound r d0 Hr). pose proof (Htodo r d0 ltac:(left) Hr).
           rewrite wrap_in_range; unfold GoInt.in_range, GoInt.MinInt, GoInt.MaxInt in *; lia.
        -- cbn [roleNew TotalNodeCount]. lia.
      * rewrite roleStep_lookup_ne by exact Hne. apply Hbound.
    + intros role d Hin. assert (r <> role) as Hne by (intros ->; contradiction).
      rewrite roleStep_lookup_ne by exact Hne. apply Htodo. right. exact Hin.
    + split; [|exact IHbound]. rewrite IHsum. clear IH IHsum IHbound.
      unfold roleStep.
      destruct (nodeRoleCapacityData st !! r) as [d0|] eqn:Hr; cbn [nodeRoleCapacityData].
      * rewrite (nodeCountOverRoles_insert_old _ _ d0) by exact Hr.
        cbn [roleAdd TotalNodeCount]. unfold GoInt.add.
        pose proof (Hbound r d0 Hr). pose proof (Htodo r d0 ltac:(left) Hr).
        rewrite wrap_in_range; unfold GoInt.in_range, GoInt.MinInt, GoInt.MaxInt in *; lia.
      * rewrite nodeCountOverRoles_insert_new by exact Hr.
        cbn [roleNew TotalNodeCount]. lia.
Qed.

End CountNodes.

Lemma nodeRoleLoop_count k clientset s nodes :
  fair s ->
  forall i st st' seen,
    nodeRoleLoop k clientset s i st nodes = Ok st' ->
    0 <= seen ->
    seen + GoInt.len nodes <= GoInt.MaxInt ->
    (forall role d, nodeRoleCapacityData st !! role = Some d ->
                    0 <= TotalNodeCount d <= seen) ->
    nodeCountOverRoles (nodeRoleCapacityData st')
    = nodeCountOverRoles (nodeRoleCapacityData st) + Z.of_nat (roleMemberships nodes).
Proof.
  intros [Hlabels Hroles]. unfold GoInt.len.
  induction nodes as [|node nodes IH]; intros i st st' seen Hloop Hseen Hfit Hbound;
    cbn [nodeRoleLoop] in Hloop.
  - injection Hloop as <-. unfold roleMemberships. simpl. lia.
  - destruct (nodeRoleNode k clientset s i st node) as [st1|] eqn:Hnode; [|discriminate].
    cbn [length] in Hfit. unfold nodeRoleNode in Hnode.
    destruct (nodePods k clientset node) as [p|]; [|discriminate].
    injection Hnode as Hnode.
    rewrite (nodeRoles_perm _ _ (Hlabels i (map_to_list (Labels node)))) in Hnode.
    destruct (foldl_roleStep_count node (nodeSums p) (totalPodCount p)
                (nonTerminatedPodCount p)
                (roleOrder s i (elements (nodeRoles (map_to_list (Labels node))))) seen)
      with (st := st) as [Hsum Hbound1].
    + rewrite Hroles. apply NoDup_elements.
    + lia.
    + lia.
    + intros role d Hd. pose proof (Hbound role d Hd). lia.
    + intros role d _ Hd. pose proof (Hbound role d Hd). lia.
    + rewrite Hnode in Hsum, Hbound1.
      rewrite (IH (S i) st1 st' (seen + 1) Hloop); [| lia | lia | exact Hbound1].
      rewrite Hsum, Hroles. unfold roleMemberships. cbn [map].
      change (list_sum (?x :: ?l)) with (x + list_sum l)%nat.
      unfold size, set_size. cbn [compose]. lia.
Qed.

(** C6.  A node is added whole to the record of each of its roles: when
    the node-role command has handled a node, every role of the node's role
    set has a record that is the role's earlier record (or a fresh one) with
    the node's full contribution added, the same for every role, and no
    other role changed.  Hence, over a node list that fits a Go slice, the
    rendered [TotalNodeCount]s add up to the sizes of the nodes' role
    sets. *)
Theorem node_counts_in_each_role :
  (forall k clientset s i st node p st',
      fair s ->
      nodePods k clientset node = Ok p ->
      nodeRoleNode k clientset s i st node = Ok st' ->
      forall role,
        (role ∈ nodeRoles (map_to_list (Labels node)) ->
         exists after,
           nodeRoleCapacityData st' !! role = Some after
           /\ addsNode node p
                (default newClusterCapacityData (nodeRoleCapacityData st !! role)) after)
        /\ (role ∉ nodeRoles (map_to_list (Labels node)) ->
            nodeRoleCapacityData st' !! role = nodeRoleCapacityData st !! role))
  /\ (forall k clientset s nodes m names,
        fair s ->
        CreateClientSet k = Ok clientset ->
        NodesList clientset = Listed nodes ->
        GoInt.len nodes <= GoInt.MaxInt ->
        nodeRoleRunE k s = Rendered (m, names) ->
        nodeCountOverRoles m = Z.of_nat (roleMemberships nodes)).
Proof.
  split.
  - intros k clientset s i st node p st' [Hlabels Hroles] Hpods Hnode role.
    unfold nodeRoleNode in Hnode. rewrite Hpods in Hnode. injection Hnode as <-.
    rewrite (nodeRoles_perm _ _ (Hlabels i (map_to_list (Labels node)))).
    rewrite foldl_roleStep_lookup by (rewrite Hroles; apply NoDup_elements).
    destruct (decide (role ∈ roleOrder s i (elements (nodeRoles (map_to_list (Labels node))))))
      as [Hin|Hout]; rewrite Hroles, elem_of_elements in *.
    + split; [|contradiction]. intros _. eexists. split; [reflexivity|].
      apply roleAfter_addsNode.
    + split; [contradiction|reflexivity].
  - intros k clientset s nodes m names Hfair Hclient Hnodes Hfit Hrun.
    unfold nodeRoleRunE in Hrun. rewrite Hclient, Hnodes in Hrun.
    destruct (nodeRoleLoop k clientset s 0 newRoleState nodes) as [st|] eqn:Hloop;
      [|discriminate].
    assert (namesMatch st) as Hst
      by (eapply nodeRoleLoop_namesMatch; [apply newRoleState_namesMatch|exact Hloop]).
    rewrite (deriveAvailable_all st Hst) in Hrun. injection Hrun as <- _.
    rewrite nodeCountOverRoles_available.
    rewrite (nodeRoleLoop_count k clientset s nodes Hfair 0%nat newRoleState st 0 Hloop);
      [reflexivity|lia|lia|].
    intros role d. cbn [newRoleState nodeRoleCapacityData]. rewrite lookup_empty. discriminate.
Qed.

(** ** The theorems at concrete clusters *)

Lemma node_roles_exact_witness :
  ("etcd" ∈ nodeRoles (map_to_list controlLabels)
   /\ "master" ∈ nodeRoles (map_to_list controlLabels)
   /\ "<none>" ∉ nodeRoles (map_to_list controlLabels))
  /\ "worker" ∈ nodeRoles (map_to_list workerLabels).
Proof.
  destruct (node_roles_exact controlLabels (map_to_list controlLabels) (Permutation_refl _))
    as [Hcontrol _].
  destruct (node_roles_exact workerLabels (map_to_list workerLabels) (Permutation_refl _))
    as [Hworker _].
  assert (isRole controlLabels "etcd") as Hetcd.
  { split; [discriminate|]. left. vm_compute. eauto. }
  split; [split; [|split]|].
  - apply Hcontrol. left. exact Hetcd.
  - apply Hcontrol. left. split; [discriminate|]. left. vm_compute. eauto.
  - intros Hnone. apply Hcontrol in Hnone as [(_ & [[v Hv]|Hv])|[Hno _]].
    + vm_compute in Hv. discriminate Hv.
    + vm_compute in Hv. discriminate Hv.
    + exact (Hno "etcd" Hetcd).
  - apply Hworker. left. split; [discriminate|]. right. vm_compute. reflexivity.
Defined.

Lemma role_names_sorted_witness :
  exists m names,
    nodeRoleRunE threeNodeCluster backwards = Rendered (m, names)
    /\ names = ["<none>"; "etcd"; "master"; "worker"]
    /\ StronglySorted string_le names.
Proof.
  destruct (nodeRoleRunE threeNodeCluster backwards) as [[m names]|e] eqn:Hrun;
    [|vm_compute in Hrun; discriminate Hrun].
  destruct (role_names_sorted threeNodeCluster backwards m names Hrun) as (Hsorted & _ & _).
  exists m, names. split; [reflexivity|]. split; [|exact Hsorted].
  vm_compute in Hrun. injection Hrun as _ <-. reflexivity.
Defined.

Lemma reports_deterministic_witness :
  clusterRunE threeNodeCluster = clusterRunE threeNodeCluster
  /\ nodeRoleRunE threeNodeCluster inOrder = nodeRoleRunE threeNodeCluster backwards.
Proof.
  exact (reports_deterministic threeNodeCluster threeNodeCluster inOrder backwards
           (sameAnswers_refl threeNodeCluster) fair_inOrder fair_backwards).
Defined.

Lemma node_counts_in_each_role_witness :
  exists m names,
    nodeRoleRunE threeNodeCluster inOrder = Rendered (m, names)
    /\ nodeCountOverRoles m = 4.
Proof.
  destruct (nodeRoleRunE threeNodeCluster inOrder) as [[m names]|e] eqn:Hrun;
    [|vm_compute in Hrun; discriminate Hrun].
  exists m, names. split; [reflexivity|].
  rewrite (proj2 node_counts_in_each_role threeNodeCluster
             {| NodesList := Listed threeNodes; PodsList := apiPodsList _ |}
             inOrder threeNodes m names fair_inOrder eq_refl eq_refl).
  - vm_compute. reflexivity.
  - vm_compute. discriminate.
  - exact Hrun.
Defined.

(** * Further properties of the two commands *)

(** ** The cluster command in closed form *)

Lemma clusterNodes_sum (f : ClusterCapacityData -> Z) (g : Node -> Z) :
  (forall d node, f (clusterNode d node) = f d + g node) ->
  forall nodes d, f (foldl clusterNode d nodes) = f d + sumNodes g nodes.
Proof.
  intros Hstep nodes. induction nodes as [|node nodes IH]; intros d; cbn [foldl sumNodes foldr].
  - lia.
  - rewrite IH, Hstep. fold (sumNodes g nodes). lia.
Qed.

Lemma clusterNodes_unschedulable nodes d a :
  TotalUnschedulableNodeCount d = GoInt.wrap a ->
  TotalUnschedulableNodeCount (foldl clusterNode d nodes)
  = GoInt.wrap (a + GoInt.len (List.filter Unschedulable nodes)).
Proof.
  unfold GoInt.len. revert d a.
  induction nodes as [|node nodes IH]; intros d a Ha; cbn [foldl List.filter].
  - rewrite Ha. f_equal. simpl. lia.
  - destruct (Unschedulable node) eqn:Hflag.
    + rewrite (IH _ (a + 1)).
      * f_equal. cbn [length]. lia.
      * cbn [clusterNode TotalUnschedulableNodeCount]. rewrite Hflag, Ha. apply add_wrap_l.
    + apply IH. cbn [clusterNode TotalUnschedulableNodeCount]. rewrite Hflag. exact Ha.
Qed.

Lemma filter_len_le {A} (p : A -> bool) (l : list A) :
  0 <= GoInt.len (List.filter p l) <= GoInt.len l.
Proof. unfold GoInt.len. pose proof (List.filter_length_le p l). lia. Qed.

(** X1.  Whenever the cluster command renders (client set, node listing and
    selector parse succeeded) over a node list that fits a Go slice,
    [TotalNodeCount] is the number of listed nodes and
    [TotalUnschedulableNodeCount] the number of them marked unschedulable. *)
Theorem cluster_node_counters k clientset nodes fieldSelector :
  CreateClientSet k = Ok clientset ->
  NodesList clientset = Listed nodes ->
  ParseSelector k nonTerminatedSelector = Ok fieldSelector ->
  GoInt.len nodes <= GoInt.MaxInt ->
  exists d, clusterRunE k = Rendered d
    /\ TotalNodeCount d = GoInt.len nodes
    /\ TotalUnschedulableNodeCount d = GoInt.len (List.filter Unschedulable nodes).
Proof.
  intros H1 H2 H3 Hfit.
  eexists. split; [apply (clusterRunE_rendered _ _ _ _ H1 H2 H3)|].
  rewrite clusterPods_eq.
  cbn [TotalNodeCount TotalUnschedulableNodeCount clusterSetPodCounts clusterSetUnready].
  destruct (clusterNodes_counts nodes newClusterCapacityData 0 0) as [-> _];
    [reflexivity|reflexivity|].
  rewrite (clusterNodes_unschedulable nodes newClusterCapacityData 0) by reflexivity.
  pose proof (filter_len_le Unschedulable nodes).
  assert (0 <= GoInt.len nodes) by (unfold GoInt.len; lia).
  split; apply wrap_in_range; unfold GoInt.in_range, GoInt.MinInt, GoInt.MaxInt in *; lia.
Qed.

Lemma cluster_node_counters_witness :
  exists d, clusterRunE (apiserver [oddNode; scenarioNode; oddNode] []) = Rendered d
    /\ TotalNodeCount d = 3
    /\ TotalUnschedulableNodeCount d = 2.
Proof.
  destruct (cluster_node_counters (apiserver [oddNode; scenarioNode; oddNode] [])
              {| NodesList := Listed [oddNode; scenarioNode; oddNode];
                 PodsList := apiPodsList [] |}
              [oddNode; scenarioNode; oddNode]
              "status.phase!=Failed,status.phase!=Succeeded"
              eq_refl eq_refl parse_nonTerminatedSelector)
    as (d & Hrun & Hcount & Hflag).
  - vm_compute. discriminate.
  - exists d. split; [exact Hrun|]. rewrite Hcount, Hflag. split; reflexivity.
Defined.

(** X2.  Whenever the cluster command renders, each of the six capacity and
    allocatable totals is the exact sum, over the listed nodes, of what the
    node declares for that resource; a node that declares nothing for a
    resource adds zero. *)
Theorem cluster_capacity_totals k clientset nodes fieldSelector :
  CreateClientSet k = Ok clientset ->
  NodesList clientset = Listed nodes ->
  ParseSelector k nonTerminatedSelector = Ok fieldSelector ->
  exists d, clusterRunE k = Rendered d
    /\ TotalCapacityPods d = sumNodes (fun node => Pods (Capacity node)) nodes
    /\ TotalCapacityCPU d = sumNodes (fun node => Cpu (Capacity node)) nodes
    /\ TotalCapacityMemory d = sumNodes (fun node => Memory (Capacity node)) nodes
    /\ TotalAllocatablePods d = sumNodes (fun node => Pods (Allocatable node)) nodes
    /\ TotalAllocatableCPU d = sumNodes (fun node => Cpu (Allocatable node)) nodes
    /\ TotalAllocatableMemory d = sumNodes (fun node => Memory (Allocatable node)) nodes.
Proof.
  intros H1 H2 H3.
  eexists. split; [apply (clusterRunE_rendered _ _ _ _ H1 H2 H3)|].
  rewrite clusterPods_eq.
  cbn [TotalCapacityPods TotalCapacityCPU TotalCapacityMemory TotalAllocatablePods
       TotalAllocatableCPU TotalAllocatableMemory clusterSetPodCounts clusterSetUnready].
  repeat split.
  - apply (clusterNodes_sum TotalCapacityPods (fun node => Pods (Capacity node))). reflexivity.
  - apply (clusterNodes_sum TotalCapacityCPU (fun node => Cpu (Capacity node))). reflexivity.
  - apply (clusterNodes_sum TotalCapacityMemory (fun node => Memory (Capacity node))).
    reflexivity.
  - apply (clusterNodes_sum TotalAllocatablePods (fun node => Pods (Allocatable node))).
    reflexivity.
  - apply (clusterNodes_sum TotalAllocatableCPU (fun node => Cpu (Allocatable node))).
    reflexivity.
  - apply (clusterNodes_sum TotalAllocatableMemory (fun node => Memory (Allocatable node))).
    reflexivity.
Qed.

Lemma cluster_capacity_totals_witness :
  exists d, clusterRunE (apiserver [scenarioNode; oddNode; scenarioNode] []) = Rendered d
    /\ TotalCapacityCPU d = Quantity.units 8
    /\ TotalAllocatableCPU d = Quantity.units 7
    /\ TotalCapacityPods d = Quantity.zero.
Proof.
  destruct (cluster_capacity_totals (apiserver [scenarioNode; oddNode; scenarioNode] [])
              {| NodesList := Listed [scenarioNode; oddNode; scenarioNode];
                 PodsList := apiPodsList [] |}
              [scenarioNode; oddNode; scenarioNode]
              "status.phase!=Failed,status.phase!=Succeeded"
              eq_refl eq_refl parse_nonTerminatedSelector)
    as (d & Hrun & Hpods & Hcpu & _ & _ & Hacpu & _).
  exists d. split; [exact Hrun|]. rewrite Hpods, Hcpu, Hacpu.
  repeat split; vm_compute; reflexivity.
Defined.

(** ** Ready and unready nodes when a node has one Ready condition *)

Lemma filter_length_existsb {A} (p : A -> bool) (l : list A) :
  (existsb p l = false -> length (List.filter p l) = 0%nat)
  /\ (existsb p l = true -> (1 <= length (List.filter p l))%nat).
Proof.
  induction l as [|x l [IH0 IH1]]; cbn [existsb List.filter].
  - split; [reflexivity|discriminate].
  - destruct (p x); cbn [orb length]; split; try discriminate; try lia; assumption.
Qed.

Lemma readyConditions_isReady node :
  (readyConditions node <= 1)%nat ->
  Z.of_nat (readyConditions node) = if isReady node then 1 else 0.
Proof.
  unfold readyConditions, isReady. intros Hone.
  destruct (filter_length_existsb isReadyTrue (Conditions node)) as [Hnone Hsome].
  destruct (existsb isReadyTrue (Conditions node)).
  - specialize (Hsome eq_refl). lia.
  - rewrite (Hnone eq_refl). reflexivity.
Qed.

Lemma readyConditionsTotal_isReady nodes :
  (forall node, node ∈ nodes -> (readyConditions node <= 1)%nat) ->
  Z.of_nat (readyConditionsTotal nodes) = GoInt.len (List.filter isReady nodes).
Proof.
  unfold readyConditionsTotal, GoInt.len.
  induction nodes as [|node nodes IH]; intros Hone; [reflexivity|].
  cbn [map List.filter]. change (list_sum (?x :: ?l)) with (x + list_sum l)%nat.
  rewrite Nat2Z.inj_add, IH by (intros n Hn; apply Hone; right; exact Hn).
  rewrite readyConditions_isReady by (apply Hone; left).
  destruct (isReady node); cbn [length]; lia.
Qed.

Lemma filter_len_split {A} (p : A -> bool) (l : list A) :
  GoInt.len (List.filter p l) + GoInt.len (List.filter (fun x => negb (p x)) l) = GoInt.len l.
Proof.
  unfold GoInt.len. induction l as [|x l IH]; [reflexivity|].
  cbn [List.filter]. destruct (p x); cbn [negb length]; lia.
Qed.

(** X3.  When no listed node carries more than one Ready condition of
    status True (and the node list fits a Go slice), the cluster command
    renders the number of ready nodes as [TotalReadyNodeCount] and the
    number of nodes that are not ready as [TotalUnreadyNodeCount]; the two
    add up to [TotalNodeCount]. *)
Theorem cluster_ready_nodes k clientset nodes fieldSelector :
  CreateClientSet k = Ok clientset ->
  NodesList clientset = Listed nodes ->
  ParseSelector k nonTerminatedSelector = Ok fieldSelector ->
  GoInt.len nodes <= GoInt.MaxInt ->
  (forall node, node ∈ nodes -> (readyConditions node <= 1)%nat) ->
  exists d, clusterRunE k = Rendered d
    /\ TotalReadyNodeCount d = GoInt.len (List.filter isReady nodes)
    /\ TotalUnreadyNodeCount d = GoInt.len (List.filter (fun node => negb (isReady node)) nodes)
    /\ TotalReadyNodeCount d + TotalUnreadyNodeCount d = TotalNodeCount d.
Proof.
  intros H1 H2 H3 Hfit Hone.
  eexists. split; [apply (clusterRunE_rendered _ _ _ _ H1 H2 H3)|].
  rewrite clusterPods_eq.
  cbn [TotalNodeCount TotalReadyNodeCount TotalUnreadyNodeCount
       clusterSetPodCounts clusterSetUnready].
  destruct (clusterNodes_counts nodes newClusterCapacityData 0 0) as [-> ->];
    [reflexivity|reflexivity|].
  rewrite (readyConditionsTotal_isReady nodes Hone).
  pose proof (filter_len_le isReady nodes).
  pose proof (filter_len_split isReady nodes).
  assert (0 <= GoInt.len nodes) by (unfold GoInt.len; lia).
  rewrite !Z.add_0_l.
  rewrite (wrap_in_range (GoInt.len nodes))
    by (unfold GoInt.in_range, GoInt.MinInt, GoInt.MaxInt in *; lia).
  rewrite (wrap_in_range (GoInt.len (List.filter isReady nodes)))
    by (unfold GoInt.in_range, GoInt.MinInt, GoInt.MaxInt in *; lia).
  unfold GoInt.sub.
  rewrite wrap_in_range by (unfold GoInt.in_range, GoInt.MinInt, GoInt.MaxInt in *; lia).
  repeat split; lia.
Qed.

Lemma cluster_ready_nodes_witness :
  exists d, clusterRunE (apiserver [scenarioNode; unreadyNode; oddNode] []) = Rendered d
    /\ TotalReadyNodeCount d = 1
    /\ TotalUnreadyNodeCount d = 2.
Proof.
  destruct (cluster_ready_nodes (apiserver [scenarioNode; unreadyNode; oddNode] [])
              {| NodesList := Listed [scenarioNode; unreadyNode; oddNode];
                 PodsList := apiPodsList [] |}
              [scenarioNode; unreadyNode; oddNode]
              "status.phase!=Failed,status.phase!=Succeeded"
              eq_refl eq_refl parse_nonTerminatedSelector)
    as (d & Hrun & Hready & Hunready & _).
  - vm_compute. discriminate.
  - intros node Hnode.
    repeat (apply elem_of_cons in Hnode as [-> | Hnode]; [vm_compute; lia|]).
    inversion Hnode.
  - exists d. split; [exact Hrun|]. rewrite Hready, Hunready. split; reflexivity.
Defined.

(** ** The role records in closed form *)

Lemma podsOf_nodePods k clientset node p :
  nodePods k clientset node = Ok p -> podsOf k clientset node = p.
Proof. unfold podsOf. intros ->. reflexivity. Qed.

Lemma members_nil_iff role nodes :
  members role nodes = []
  <-> forall node, node ∈ nodes -> role ∉ nodeRoles (map_to_list (Labels node)).
Proof.
  unfold members. induction nodes as [|node nodes IH]; cbn [List.filter].
  - split; [|reflexivity]. intros _ node Hin. inversion Hin.
  - unfold hasRole at 1. destruct (bool_decide_reflect (role ∈ nodeRoles (map_to_list (Labels node))))
      as [Hin|Hout].
    + split; [discriminate|]. intros Hall. exfalso. exact (Hall node ltac:(left) Hin).
    + rewrite IH. split.
      * intros Hall n Hn. apply elem_of_cons in Hn as [-> | Hn]; [exact Hout|auto].
      * intros Hall n Hn. apply Hall. right. exact Hn.
Qed.

Lemma tally_members g role nodes :
  (forall a, foldl (tally g role) (Some a) nodes
             = Some (a + sumNodes g (members role nodes)))
  /\ foldl (tally g role) None nodes
     = match members role nodes with
       | [] => None
       | _ :: _ => Some (sumNodes g (members role nodes))
       end.
Proof.
  unfold members. induction nodes as [|node nodes [IHsome IHnone]]; cbn [foldl List.filter].
  - split; [intros a; cbn [sumNodes foldr]; apply (f_equal Some); lia|reflexivity].
  - unfold tally at 2 4. destruct (hasRole role node); cbn [default].
    + split.
      * intros a. rewrite IHsome. apply (f_equal Some).
        unfold sumNodes, id. cbn [foldr]. lia.
      * rewrite IHsome. apply (f_equal Some). unfold sumNodes, id. cbn [foldr]. lia.
    + split; [exact IHsome|exact IHnone].
Qed.

Section RoleField.

Context (k : Kube) (clientset : Clientset).
Context (f : ClusterCapacityData -> Z) (g : Node -> Z) (N : Z -> Z) (good : Node -> Prop).

Hypothesis f_new : forall node p,
  good node -> podsOf k clientset node = p ->
  f (roleNew node (nodeSums p) (totalPodCount p) (nonTerminatedPodCount p)) = N (g node).

Hypothesis f_add : forall d node p a,
  good node -> podsOf k clientset node = p -> f d = N a ->
  f (roleAdd d node (nodeSums p) (totalPodCount p) (nonTerminatedPodCount p))
  = N (a + g node).

Hypothesis f_available : forall d, f (roleAvailable d) = f d.

Lemma nodeRoleNode_field s i st st' node role total :
  fair s -> good node ->
  nodeRoleNode k clientset s i st node = Ok st' ->
  represents f N (nodeRoleCapacityData st !! role) total ->
  represents f N (nodeRoleCapacityData st' !! role) (tally g role total node).
Proof.
  intros [Hlabels Hroles] Hgood Hnode Hrep. unfold nodeRoleNode in Hnode.
  destruct (nodePods k clientset node) as [p|] eqn:Hpods; [|discriminate].
  injection Hnode as <-. apply podsOf_nodePods in Hpods.
  rewrite (nodeRoles_perm _ _ (Hlabels i (map_to_list (Labels node)))).
  rewrite foldl_roleStep_lookup by (rewrite Hroles; apply NoDup_elements).
  unfold tally, hasRole.
  destruct (decide (role ∈ roleOrder s i (elements (nodeRoles (map_to_list (Labels node))))))
    as [Hin|Hout]; rewrite Hroles, elem_of_elements in *.
  - rewrite bool_decide_eq_true_2 by exact Hin.
    destruct (nodeRoleCapacityData st !! role) as [d|], total as [a|];
      cbn [represents roleAfter default] in *; try contradiction.
    + apply f_add; assumption.
    + rewrite Z.add_0_l. apply f_new; assumption.
  - rewrite bool_decide_eq_false_2 by exact Hout. exact Hrep.
Qed.

Lemma nodeRoleLoop_field s role nodes :
  fair s ->
  forall i st st' total,
    (forall node, node ∈ nodes -> good node) ->
    nodeRoleLoop k clientset s i st nodes = Ok st' ->
    represents f N (nodeRoleCapacityData st !! role) total ->
    represents f N (nodeRoleCapacityData st' !! role) (foldl (tally g role) total nodes).
Proof.
  intros Hfair. induction nodes as [|node nodes IH]; intros i st st' total Hgood Hloop Hrep;
    cbn [nodeRoleLoop foldl] in *.
  - injection Hloop as <-. exact Hrep.
  - destruct (nodeRoleNode k clientset s i st node) as [st1|] eqn:Hnode; [|discriminate].
    apply (IH (S i) st1 st' _ (fun n Hn => Hgood n ltac:(right; exact Hn)) Hloop).
    apply (nodeRoleNode_field s i st st1 node role total Hfair (Hgood node ltac:(left)) Hnode Hrep).
Qed.

(** A rendered role record holds, in field [f], the total of [g] over the
    listed nodes of the role; a role has a record exactly when some listed
    node is in it. *)
Lemma rendered_field s nodes m names role :
  fair s ->
  CreateClientSet k = Ok clientset ->
  NodesList clientset = Listed nodes ->
  (forall node, node ∈ nodes -> good node) ->
  nodeRoleRunE k s = Rendered (m, names) ->
  match m !! role with
  | Some d => members role nodes <> [] /\ f d = N (sumNodes g (members role nodes))
  | None => members role nodes = []
  end.
Proof.
  intros Hfair Hclient Hnodes Hgood Hrun.
  destruct (nodeRoleRunE_inv k s m names Hrun)
    as (clientset' & nodes' & st & Hclient' & Hnodes' & Hloop & _ & -> & _).
  rewrite Hclient in Hclient'. injection Hclient' as <-.
  rewrite Hnodes in Hnodes'. injection Hnodes' as <-.
  pose proof (nodeRoleLoop_field s role nodes Hfair 0%nat newRoleState st None Hgood Hloop)
    as Hrep.
  cbn [newRoleState nodeRoleCapacityData] in Hrep. rewrite lookup_empty in Hrep.
  specialize (Hrep I). rewrite (proj2 (tally_members g role nodes)) in Hrep.
  rewrite lookup_fmap.
  destruct (nodeRoleCapacityData st !! role) as [d|], (members role nodes) as [|n ns];
    cbn [represents fmap option_fmap option_map] in *; try contradiction.
  - split; [discriminate|]. rewrite f_available. exact Hrep.
  - reflexivity.
Qed.

End RoleField.

(** ** When the node-role command renders and when it aborts *)

Lemma nodePods_ok_iff k clientset node :
  (exists p, nodePods k clientset node = Ok p) <-> selectorsParse k node.
Proof.
  unfold nodePods, selectorsParse. split.
  - intros [p Hp].
    destruct (ParseSelector k (nodeSelector node)) as [sel1|]; [|discriminate].
    destruct (ParseSelector k (nodeNonTerminatedSelector node)) as [sel2|]; [|discriminate].
    eauto.
  - intros [[sel1 ->] [sel2 ->]]. eauto.
Qed.

Lemma nodePods_err k clientset node err :
  selectorFails k node err ->
  nodePods k clientset node = Err (Wrap err "failed to create fieldSelector").
Proof.
  unfold nodePods. intros [-> | [[sel ->] ->]]; reflexivity.
Qed.

Lemma nodeRoleLoop_ok k clientset s nodes :
  (forall node, node ∈ nodes -> selectorsParse k node) ->
  forall i st, exists st', nodeRoleLoop k clientset s i st nodes = Ok st'.
Proof.
  induction nodes as [|node nodes IH]; intros Hparse i st; cbn [nodeRoleLoop]; [eauto|].
  destruct (proj2 (nodePods_ok_iff k clientset node) (Hparse node ltac:(left))) as [p Hp].
  unfold nodeRoleNode. rewrite Hp. apply IH. intros n Hn. apply Hparse. right. exact Hn.
Qed.

Lemma nodeRoleLoop_ok_inv k clientset s nodes :
  forall i st st', nodeRoleLoop k clientset s i st nodes = Ok st' ->
    forall node, node ∈ nodes -> selectorsParse k node.
Proof.
  induction nodes as [|node nodes IH]; intros i st st' Hloop n Hn; [inversion Hn|].
  cbn [nodeRoleLoop] in Hloop. unfold nodeRoleNode in Hloop.
  destruct (nodePods k clientset node) as [p|] eqn:Hp; [|discriminate].
  apply elem_of_cons in Hn as [-> | Hn].
  - apply (nodePods_ok_iff k clientset). eauto.
  - eapply IH; eassumption.
Qed.

Lemma nodeRoleLoop_err k clientset s before node after err :
  (forall n, n ∈ before -> selectorsParse k n) ->
  selectorFails k node err ->
  forall i st,
    nodeRoleLoop k clientset s i st (before ++ node :: after)
    = Err (Wrap err "failed to create fieldSelector").
Proof.
  intros Hbefore Hfails. induction before as [|n before IH]; intros i st;
    cbn [app nodeRoleLoop]; unfold nodeRoleNode.
  - rewrite (nodePods_err k clientset node err Hfails). reflexivity.
  - destruct (proj2 (nodePods_ok_iff k clientset n) (Hbefore n ltac:(left))) as [p ->].
    apply IH. intros n' Hn'. apply Hbefore. right. exact Hn'.
Qed.

(** X4.  With a client set and a node listing, the node-role command
    renders a report exactly when both selector texts of every listed node
    parse.  Otherwise it returns the wrapped parse error of the first node
    that has a failing selector, whatever the nodes after it are, and
    nothing is rendered: the records gathered from the nodes before it are
    dropped. *)
Theorem node_role_renders_or_aborts :
  (forall k clientset s nodes,
      CreateClientSet k = Ok clientset ->
      NodesList clientset = Listed nodes ->
      ((exists m names, nodeRoleRunE k s = Rendered (m, names))
       <-> forall node, node ∈ nodes -> selectorsParse k node))
  /\ (forall k clientset s before node after err,
        CreateClientSet k = Ok clientset ->
        NodesList clientset = Listed (before ++ node :: after) ->
        (forall n, n ∈ before -> selectorsParse k n) ->
        selectorFails k node err ->
        nodeRoleRunE k s = Aborted ("failed to create fieldSelector: " +:+ err)).
Proof.
  split.
  - intros k clientset s nodes Hclient Hnodes. unfold nodeRoleRunE. rewrite Hclient, Hnodes.
    split.
    + intros (m & names & Hrun).
      destruct (nodeRoleLoop k clientset s 0 newRoleState nodes) as [st|] eqn:Hloop;
        [|discriminate].
      eapply nodeRoleLoop_ok_inv. exact Hloop.
    + intros Hparse.
      destruct (nodeRoleLoop_ok k clientset s nodes Hparse 0%nat newRoleState) as [st ->].
      eauto.
  - intros k clientset s before node after err Hclient Hnodes Hbefore Hfails.
    unfold nodeRoleRunE. rewrite Hclient, Hnodes.
    rewrite (nodeRoleLoop_err k clientset s before node after err Hbefore Hfails).
    reflexivity.
Qed.

Lemma node_role_renders_or_aborts_witness :
  nodeRoleRunE (apiserver [scenarioNode; oddNode; unreadyNode] []) inOrder
  = Aborted
      "failed to create fieldSelector: invalid selector: 'spec.nodeName=a,b'; can't understand 'b'".
Proof.
  apply (proj2 node_role_renders_or_aborts
           (apiserver [scenarioNode; oddNode; unreadyNode] [])
           {| NodesList := Listed [scenarioNode; oddNode; unreadyNode];
              PodsList := apiPodsList [] |}
           inOrder [scenarioNode] oddNode [unreadyNode]
           "invalid selector: 'spec.nodeName=a,b'; can't understand 'b'"
           eq_refl eq_refl).
  - intros n Hn. apply list_elem_of_singleton in Hn as ->.
    split; eexists; vm_compute; reflexivity.
  - left. vm_compute. reflexivity.
Defined.

(** ** Which roles are rendered, and what their records hold *)

Lemma rendered_names k s m names :
  nodeRoleRunE k s = Rendered (m, names) ->
  forall role, role ∈ names <-> is_Some (m !! role).
Proof.
  intros Hrun role.
  destruct (nodeRoleRunE_inv k s m names Hrun)
    as (clientset & nodes & st & _ & _ & _ & [_ Hdom] & -> & ->).
  rewrite sortStrings_perm, Hdom, lookup_fmap, fmap_is_Some. reflexivity.
Qed.

Lemma nodeRoles_nonempty visited : exists role, role ∈ nodeRoles visited.
Proof.
  unfold nodeRoles. destruct (size (foldl labelRole ∅ visited) =? 0)%nat eqn:Hsize.
  - exists "<none>". set_solver.
  - apply Nat.eqb_neq in Hsize.
    destruct (set_choose_or_empty (foldl labelRole ∅ visited)) as [Hrole|Hempty];
      [exact Hrole|]. apply size_empty_iff in Hempty. contradiction.
Qed.

Lemma sumNodes_ones nodes : sumNodes (fun _ => 1) nodes = GoInt.len nodes.
Proof.
  unfold sumNodes, GoInt.len. induction nodes as [|node nodes IH]; [reflexivity|].
  cbn [foldr length]. rewrite IH. lia.
Qed.

Lemma sumNodes_flag (p : Node -> bool) nodes :
  sumNodes (fun node => if p node then 1 else 0) nodes = GoInt.len (List.filter p nodes).
Proof.
  unfold sumNodes, GoInt.len. induction nodes as [|node nodes IH]; [reflexivity|].
  cbn [foldr List.filter]. rewrite IH. destruct (p node); cbn [length]; lia.
Qed.

Lemma members_le role nodes :
  0 <= GoInt.len (members role nodes) <= GoInt.len nodes.
Proof. apply filter_len_le. Qed.

(** Every field the role loop adds to, as a total over the listed nodes of
    the role: the counters as Go [int]s, the amounts exactly. *)
Lemma role_record_closed_form k clientset s nodes m names role d :
  fair s ->
  CreateClientSet k = Ok clientset ->
  NodesList clientset = Listed nodes ->
  nodeRoleRunE k s = Rendered (m, names) ->
  m !! role = Some d ->
  let M := members role nodes in
  M <> []
  /\ (TotalNodeCount d = GoInt.wrap (GoInt.len M)
      /\ TotalUnschedulableNodeCount d = GoInt.wrap (GoInt.len (List.filter Unschedulable M))
      /\ TotalPodCount d
         = GoInt.wrap (sumNodes (fun node => totalPodCount (podsOf k clientset node)) M)
      /\ TotalNonTermPodCount d
         = GoInt.wrap (sumNodes (fun node => nonTerminatedPodCount (podsOf k clientset node)) M))
  /\ (TotalCapacityPods d = sumNodes (fun node => Pods (Capacity node)) M
      /\ TotalCapacityCPU d = sumNodes (fun node => Cpu (Capacity node)) M
      /\ TotalCapacityMemory d = sumNodes (fun node => Memory (Capacity node)) M
      /\ TotalAllocatablePods d = sumNodes (fun node => Pods (Allocatable node)) M
      /\ TotalAllocatableCPU d = sumNodes (fun node => Cpu (Allocatable node)) M
      /\ TotalAllocatableMemory d = sumNodes (fun node => Memory (Allocatable node)) M)
  /\ (TotalRequestsCPU d
      = sumNodes (fun node => totalRequestsCPU (nodeSums (podsOf k clientset node))) M
      /\ TotalLimitsCPU d
         = sumNodes (fun node => totalLimitssCPU (nodeSums (podsOf k clientset node))) M
      /\ TotalRequestsMemory d
         = sumNodes (fun node => totalRequestsMemory (nodeSums (podsOf k clientset node))) M
      /\ TotalLimitsMemory d
         = sumNodes (fun node => totalLimitsMemory (nodeSums (podsOf k clientset node))) M).
Proof.
  intros Hfair Hclient Hnodes Hrun Hrole M.
  assert (forall (f : ClusterCapacityData -> Z) (g : Node -> Z) (N : Z -> Z),
             (forall node p, podsOf k clientset node = p ->
                f (roleNew node (nodeSums p) (totalPodCount p) (nonTerminatedPodCount p))
                = N (g node)) ->
             (forall d0 node p a, podsOf k clientset node = p -> f d0 = N a ->
                f (roleAdd d0 node (nodeSums p) (totalPodCount p) (nonTerminatedPodCount p))
                = N (a + g node)) ->
             (forall d0, f (roleAvailable d0) = f d0) ->
             M <> [] /\ f d = N (sumNodes g M)) as Hfield.
  { intros f g N Hnew Hadd Havailable.
    pose proof (rendered_field k clientset f g N (fun _ => True)
                  (fun node p _ => Hnew node p) (fun d0 node p a _ => Hadd d0 node p a)
                  Havailable s nodes m names role Hfair Hclient Hnodes (fun _ _ => I) Hrun)
      as Hrendered.
    rewrite Hrole in Hrendered. exact Hrendered. }
  assert (forall (f : ClusterCapacityData -> Z) (g : Node -> Z),
             (forall node p, podsOf k clientset node = p ->
                f (roleNew node (nodeSums p) (totalPodCount p) (nonTerminatedPodCount p))
                = 0 + g node) ->
             (forall d0 node p,  podsOf k clientset node = p ->
                f (roleAdd d0 node (nodeSums p) (totalPodCount p) (nonTerminatedPodCount p))
                = f d0 + g node) ->
             (forall d0, f (roleAvailable d0) = f d0) ->
             f d = sumNodes g M) as Hamount.
  { intros f g Hnew Hadd Havailable.
    apply (Hfield f g (fun z => z)); [exact Hnew| |exact Havailable].
    intros d0 node p a Hp Ha. cbn beta in Ha. rewrite <- Ha. apply Hadd. exact Hp. }
  split; [apply (Hfield TotalCapacityPods (fun node => Pods (Capacity node)) (fun z => z));
          [intros; reflexivity|intros d0 node p a _ Ha; cbn; unfold Quantity.Add;
                               cbn in Ha; rewrite Ha; reflexivity|reflexivity]|].
  split; [|split].
  - rewrite <- (sumNodes_ones M), <- (sumNodes_flag Unschedulable M). repeat split.
    + apply (Hfield TotalNodeCount (fun _ => 1) GoInt.wrap); [reflexivity| |reflexivity].
      intros d0 node p a _ Ha. cbn [roleAdd TotalNodeCount]. rewrite Ha. apply add_wrap_l.
    + apply (Hfield TotalUnschedulableNodeCount
               (fun node => if Unschedulable node then 1 else 0) GoInt.wrap);
        [| |reflexivity].
      * intros node p _. cbn [roleNew TotalUnschedulableNodeCount].
        destruct (Unschedulable node); reflexivity.
      * intros d0 node p a _ Ha. cbn [roleAdd TotalUnschedulableNodeCount].
        destruct (Unschedulable node); rewrite Ha; [apply add_wrap_l|f_equal; lia].
    + apply (Hfield TotalPodCount (fun node => totalPodCount (podsOf k clientset node))
               GoInt.wrap); [| |reflexivity].
      * intros node p ->. reflexivity.
      * intros d0 node p a -> Ha. cbn [roleAdd TotalPodCount]. rewrite Ha. apply add_wrap_l.
    + apply (Hfield TotalNonTermPodCount
               (fun node => nonTerminatedPodCount (podsOf k clientset node)) GoInt.wrap);
        [| |reflexivity].
      * intros node p ->. reflexivity.
      * intros d0 node p a -> Ha. cbn [roleAdd TotalNonTermPodCount]. rewrite Ha.
        apply add_wrap_l.
  - repeat split; apply Hamount; intros; reflexivity.
  - repeat split; apply Hamount; intros; subst; reflexivity.
Qed.

Lemma rendered_record_iff k clientset s nodes m names role :
  fair s ->
  CreateClientSet k = Ok clientset ->
  NodesList clientset = Listed nodes ->
  nodeRoleRunE k s = Rendered (m, names) ->
  is_Some (m !! role) <-> members role nodes <> [].
Proof.
  intros Hfair Hclient Hnodes Hrun.
  pose proof (rendered_field k clientset TotalNodeCount (fun _ => 1) GoInt.wrap (fun _ => True)
                (fun _ _ _ _ => eq_refl)) as Hfield.
  specialize (Hfield (fun d0 node p a _ _ Ha =>
                        eq_trans (f_equal (fun z => GoInt.add z 1) Ha) (add_wrap_l a 1))
                     (fun _ => eq_refl) s nodes m names role Hfair Hclient Hnodes
                     (fun _ _ => I) Hrun).
  destruct (m !! role) as [d|].
  - split; [intros _; apply Hfield|eauto].
  - split; [intros [d Hd]; discriminate Hd|]. intros Hne. contradiction.
Qed.

Lemma members_nonnil_iff role nodes :
  members role nodes <> []
  <-> exists node, node ∈ nodes /\ role ∈ nodeRoles (map_to_list (Labels node)).
Proof.
  split.
  - unfold members. induction nodes as [|node nodes IH]; cbn [List.filter]; [congruence|].
    unfold hasRole at 1.
    destruct (bool_decide_reflect (role ∈ nodeRoles (map_to_list (Labels node))))
      as [Hin|Hout].
    + intros _. exists node. split; [left|exact Hin].
    + intros Hne. destruct (IH Hne) as (n & Hn & Hrole). exists n. split; [right|]; assumption.
  - intros (node & Hin & Hrole) Hnil.
    exact (proj1 (members_nil_iff role nodes) Hnil node Hin Hrole).
Qed.

(** X5.  The role names the node-role command renders are exactly the
    roles of the listed nodes: a role is named when some listed node is in
    it, every listed node is in at least one named role, and an empty node
    listing gives an empty report. *)
Theorem rendered_roles k clientset s nodes m names :
  fair s ->
  CreateClientSet k = Ok clientset ->
  NodesList clientset = Listed nodes ->
  nodeRoleRunE k s = Rendered (m, names) ->
  (forall role,
      role ∈ names
      <-> exists node, node ∈ nodes /\ role ∈ nodeRoles (map_to_list (Labels node)))
  /\ (forall node, node ∈ nodes ->
        exists role, role ∈ names /\ role ∈ nodeRoles (map_to_list (Labels node)))
  /\ (nodes = [] -> names = [] /\ m = ∅).
Proof.
  intros Hfair Hclient Hnodes Hrun.
  assert (forall role,
             role ∈ names
             <-> exists node, node ∈ nodes /\ role ∈ nodeRoles (map_to_list (Labels node)))
    as Hnames.
  { intros role.
    rewrite (rendered_names k s m names Hrun role).
    rewrite (rendered_record_iff k clientset s nodes m names role Hfair Hclient Hnodes Hrun).
    apply members_nonnil_iff. }
  split; [exact Hnames|]. split.
  - intros node Hin.
    destruct (nodeRoles_nonempty (map_to_list (Labels node))) as [role Hrole].
    exists role. split; [|exact Hrole]. apply Hnames. eauto.
  - intros ->. split.
    + apply elem_of_nil_inv. intros role Hrole. apply Hnames in Hrole as (node & Hin & _).
      inversion Hin.
    + apply map_empty. intros role.
      destruct (m !! role) as [d|] eqn:Hd; [|reflexivity]. exfalso.
      assert (role ∈ names) as Hin
        by (apply (rendered_names k s m names Hrun); eauto).
      apply Hnames in Hin as (node & Hin & _). inversion Hin.
Qed.

Lemma rendered_roles_witness :
  exists m names,
    nodeRoleRunE threeNodeCluster backwards = Rendered (m, names)
    /\ "etcd" ∈ names.
Proof.
  destruct (nodeRoleRunE threeNodeCluster backwards) as [[m names]|e] eqn:Hrun;
    [|vm_compute in Hrun; discriminate Hrun].
  destruct (rendered_roles threeNodeCluster
              {| NodesList := Listed threeNodes; PodsList := apiPodsList _ |}
              backwards threeNodes m names fair_backwards eq_refl eq_refl Hrun)
    as (Hnames & _ & _).
  exists m, names. split; [reflexivity|]. apply Hnames.
  exists (bareNode "cp-1" controlLabels). split.
  - right. left.
  - apply (bool_decide_unpack _). vm_compute. exact I.
Defined.



(** X7.  In every role record the node-role command renders over a node
    list that fits a Go slice, [TotalNodeCount] is the number of listed
    nodes of the role (at least one) and [TotalUnschedulableNodeCount] the
    number of those marked unschedulable; the two pod counts are the sums,
    as Go [int]s, of the lengths of the two pod listings of each of those
    nodes. *)
Theorem role_counters k clientset s nodes m names role d :
  fair s ->
  CreateClientSet k = Ok clientset ->
  NodesList clientset = Listed nodes ->
  GoInt.len nodes <= GoInt.MaxInt ->
  nodeRoleRunE k s = Rendered (m, names) ->
  m !! role = Some d ->
  TotalNodeCount d = GoInt.len (members role nodes)
  /\ 1 <= TotalNodeCount d
  /\ TotalUnschedulableNodeCount d
     = GoInt.len (List.filter Unschedulable (members role nodes))
  /\ TotalPodCount d
     = GoInt.wrap (sumNodes (fun node => totalPodCount (podsOf k clientset node))
                     (members role nodes))
  /\ TotalNonTermPodCount d
     = GoInt.wrap (sumNodes (fun node => nonTerminatedPodCount (podsOf k clientset node))
                     (members role nodes)).
Proof.
  intros Hfair Hclient Hnodes Hfit Hrun Hrole.
  destruct (role_record_closed_form k clientset s nodes m names role d
              Hfair Hclient Hnodes Hrun Hrole)
    as (Hne & (Hcount & Hflag & Hpods & Hnonterm) & _ & _).
  pose proof (members_le role nodes) as Hmembers.
  pose proof (filter_len_le Unschedulable (members role nodes)) as Hflags.
  assert (1 <= GoInt.len (members role nodes)) as Hone.
  { destruct (members role nodes); [congruence|]. unfold GoInt.len. cbn [length]. lia. }
  rewrite Hcount, Hflag.
  rewrite !wrap_in_range by (unfold GoInt.in_range, GoInt.MinInt, GoInt.MaxInt in *; lia).
  repeat split; assumption.
Qed.

Lemma role_counters_witness :
  exists m names d,
    nodeRoleRunE threeNodeCluster inOrder = Rendered (m, names)
    /\ m !! "master" = Some d
    /\ TotalNodeCount d = 1
    /\ TotalUnschedulableNodeCount d = 0.
Proof.
  destruct (nodeRoleRunE threeNodeCluster inOrder) as [[m names]|e] eqn:Hrun;
    [|vm_compute in Hrun; discriminate Hrun].
  destruct (m !! "master") as [d|] eqn:Hrole.
  - destruct (role_counters threeNodeCluster
                {| NodesList := Listed threeNodes; PodsList := apiPodsList _ |}
                inOrder threeNodes m names "master" d
                fair_inOrder eq_refl eq_refl) as (Hcount & _ & Hflag & _);
      [vm_compute; discriminate|exact Hrun|exact Hrole|].
    exists m, names, d. split; [reflexivity|]. split; [exact Hrole|].
    rewrite Hcount, Hflag. split; vm_compute; reflexivity.
  - exfalso. vm_compute in Hrun. injection Hrun as <- _.
    vm_compute in Hrole. discriminate Hrole.
Defined.

(** ** Ready and unready nodes per role *)

Section BySize.

Context (J1 J2 : ClusterCapacityData -> Prop).

Hypothesis J1_new : forall node sums podCount nonTermCount,
  J1 (roleNew node sums podCount nonTermCount).

Hypothesis J2_add : forall d node sums podCount nonTermCount,
  J2 (roleAdd d node sums podCount nonTermCount).

Lemma nodeRoleLoop_sized k clientset s role nodes :
  fair s ->
  forall i st st' count,
    nodeRoleLoop k clientset s i st nodes = Ok st' ->
    sized J1 J2 (nodeRoleCapacityData st !! role) count ->
    sized J1 J2 (nodeRoleCapacityData st' !! role)
      (count + length (members role nodes)).
Proof.
  intros [Hlabels Hroles]. induction nodes as [|node nodes IH];
    intros i st st' count Hloop Hsized; cbn [nodeRoleLoop] in Hloop.
  - injection Hloop as <-. cbn [members List.filter length]. rewrite Nat.add_0_r.
    exact Hsized.
  - destruct (nodeRoleNode k clientset s i st node) as [st1|] eqn:Hnode; [|discriminate].
    unfold nodeRoleNode in Hnode.
    destruct (nodePods k clientset node) as [p|]; [|discriminate].
    injection Hnode as Hnode.
    rewrite (nodeRoles_perm _ _ (Hlabels i (map_to_list (Labels node)))) in Hnode.
    assert (nodeRoleCapacityData st1 !! role
            = if hasRole role node
              then Some (roleAfter node (nodeSums p) (totalPodCount p)
                           (nonTerminatedPodCount p) (nodeRoleCapacityData st !! role))
              else nodeRoleCapacityData st !! role) as Hstep.
    { rewrite <- Hnode.
      rewrite foldl_roleStep_lookup by (rewrite Hroles; apply NoDup_elements).
      unfold hasRole.
      destruct (decide (role ∈ roleOrder s i
                          (elements (nodeRoles (map_to_list (Labels node))))))
        as [Hin|Hout]; rewrite Hroles, elem_of_elements in *.
      - rewrite bool_decide_eq_true_2 by exact Hin. reflexivity.
      - rewrite bool_decide_eq_false_2 by exact Hout. reflexivity. }
    unfold members. cbn [List.filter]. fold (members role nodes).
    destruct (hasRole role node).
    + cbn [length]. replace (count + S (length (members role nodes)))%nat
        with (S count + length (members role nodes))%nat by lia.
      apply (IH (S i) st1 st' (S count) Hloop). rewrite Hstep.
      destruct (nodeRoleCapacityData st !! role) as [d|];
        cbn [sized roleAfter] in *.
      * right. split; [|apply J2_add]. destruct Hsized as [[-> _]|[Htwo _]]; lia.
      * left. split; [lia|apply J1_new].
    + apply (IH (S i) st1 st' count Hloop). rewrite Hstep. exact Hsized.
Qed.

Hypothesis J1_available : forall d, J1 d -> J1 (roleAvailable d).
Hypothesis J2_available : forall d, J2 d -> J2 (roleAvailable d).

Lemma rendered_sized k clientset s nodes m names role :
  fair s ->
  CreateClientSet k = Ok clientset ->
  NodesList clientset = Listed nodes ->
  nodeRoleRunE k s = Rendered (m, names) ->
  sized J1 J2 (m !! role) (length (members role nodes)).
Proof.
  intros Hfair Hclient Hnodes Hrun.
  destruct (nodeRoleRunE_inv k s m names Hrun)
    as (clientset' & nodes' & st & Hclient' & Hnodes' & Hloop & _ & -> & _).
  rewrite Hclient in Hclient'. injection Hclient' as <-.
  rewrite Hnodes in Hnodes'. injection Hnodes' as <-.
  pose proof (nodeRoleLoop_sized k clientset s role nodes Hfair 0%nat newRoleState st 0%nat
                Hloop) as Hsized.
  cbn [newRoleState nodeRoleCapacityData] in Hsized. rewrite lookup_empty in Hsized.
  specialize (Hsized eq_refl). rewrite Nat.add_0_l in Hsized.
  rewrite lookup_fmap.
  destruct (nodeRoleCapacityData st !! role) as [d0|];
    cbn [sized fmap option_fmap option_map] in *; [|exact Hsized].
  destruct Hsized as [[Hone HJ]|[Htwo HJ]]; [left|right]; split; auto.
Qed.

End BySize.

(** X8.  In what the node-role command renders, the record of a role with
    a single listed node has an unready count of zero, whether or not that
    node is ready; the record of a role with two or more listed nodes has
    total minus ready as its unready count. *)
Theorem role_unready_by_size k clientset s nodes m names role d :
  fair s ->
  CreateClientSet k = Ok clientset ->
  NodesList clientset = Listed nodes ->
  nodeRoleRunE k s = Rendered (m, names) ->
  m !! role = Some d ->
  (length (members role nodes) = 1%nat -> TotalUnreadyNodeCount d = 0)
  /\ ((2 <= length (members role nodes))%nat ->
      TotalUnreadyNodeCount d = GoInt.sub (TotalNodeCount d) (TotalReadyNodeCount d)).
Proof.
  intros Hfair Hclient Hnodes Hrun Hrole.
  pose proof (rendered_sized
                (fun d0 => TotalUnreadyNodeCount d0 = 0)
                (fun d0 => TotalUnreadyNodeCount d0
                           = GoInt.sub (TotalNodeCount d0) (TotalReadyNodeCount d0))
                roleNew_unready_zero (fun _ _ _ _ _ => eq_refl)
                (fun _ H => H) (fun _ H => H)
                k clientset s nodes m names role Hfair Hclient Hnodes Hrun) as Hsized.
  rewrite Hrole in Hsized. cbn [sized] in Hsized.
  destruct Hsized as [[Hone Hzero]|[Htwo Hdiff]]; split; intros Hsize;
    try lia; assumption.
Qed.

Lemma role_unready_by_size_witness :
  exists m names d,
    nodeRoleRunE (apiserver [unreadyNode; unreadyNode] []) inOrder = Rendered (m, names)
    /\ m !! "worker" = Some d
    /\ TotalUnreadyNodeCount d = GoInt.sub (TotalNodeCount d) (TotalReadyNodeCount d).
Proof.
  destruct (nodeRoleRunE (apiserver [unreadyNode; unreadyNode] []) inOrder)
    as [[m names]|e] eqn:Hrun; [|vm_compute in Hrun; discriminate Hrun].
  destruct (m !! "worker") as [d|] eqn:Hrole.
  - destruct (role_unready_by_size (apiserver [unreadyNode; unreadyNode] [])
                {| NodesList := Listed [unreadyNode; unreadyNode];
                   PodsList := apiPodsList [] |}
                inOrder [unreadyNode; unreadyNode] m names "worker" d
                fair_inOrder eq_refl eq_refl Hrun Hrole) as (_ & Hdiff).
    exists m, names, d. split; [reflexivity|]. split; [exact Hrole|].
    apply Hdiff. vm_compute. lia.
  - exfalso. vm_compute in Hrun. injection Hrun as <- _.
    vm_compute in Hrole. discriminate Hrole.
Defined.

Lemma roleNew_ready node sums podCount nonTermCount :
  TotalReadyNodeCount (roleNew node sums podCount nonTermCount)
  = if isReady node then 1 else 0.
Proof.
  unfold roleNew, isReady. cbn [TotalReadyNodeCount].
  induction (Conditions node) as [|c cs IH] using rev_ind; [reflexivity|].
  rewrite foldl_app, existsb_app. cbn [foldl existsb].
  destruct (isReadyTrue c); cbn [orb].
  - rewrite orb_true_r. reflexivity.
  - rewrite IH, !orb_false_r. reflexivity.
Qed.

Lemma rendered_ready k clientset s nodes m names role d :
  fair s ->
  CreateClientSet k = Ok clientset ->
  NodesList clientset = Listed nodes ->
  GoInt.len nodes <= GoInt.MaxInt ->
  (forall node, node ∈ nodes -> (readyConditions node <= 1)%nat) ->
  nodeRoleRunE k s = Rendered (m, names) ->
  m !! role = Some d ->
  TotalReadyNodeCount d = GoInt.len (List.filter isReady (members role nodes)).
Proof.
  intros Hfair Hclient Hnodes Hfit Hone Hrun Hrole.
  pose proof (rendered_field k clientset TotalReadyNodeCount
                (fun node => if isReady node then 1 else 0) GoInt.wrap
                (fun node => (readyConditions node <= 1)%nat)) as Hfield.
  specialize (Hfield
                (fun node p _ _ =>
                   eq_trans (roleNew_ready node _ _ _)
                     (if isReady node as b
                         return ((if b then 1 else 0) = GoInt.wrap (if b then 1 else 0))
                      then eq_refl else eq_refl))).
  assert (forall d0 node p a,
             (readyConditions node <= 1)%nat -> podsOf k clientset node = p ->
             TotalReadyNodeCount d0 = GoInt.wrap a ->
             TotalReadyNodeCount
               (roleAdd d0 node (nodeSums p) (totalPodCount p) (nonTerminatedPodCount p))
             = GoInt.wrap (a + (if isReady node then 1 else 0))) as Hadd.
  { intros d0 node p a Hnode _ Ha. cbn [roleAdd TotalReadyNodeCount].
    rewrite Ha, countReady_wrap. fold (readyConditions node).
    rewrite (readyConditions_isReady node Hnode). reflexivity. }
  specialize (Hfield Hadd (fun _ => eq_refl) s nodes m names role
                Hfair Hclient Hnodes Hone Hrun).
  rewrite Hrole in Hfield. destruct Hfield as [_ Hready].
  rewrite sumNodes_flag in Hready.
  pose proof (members_le role nodes) as Hmembers.
  pose proof (filter_len_le isReady (members role nodes)) as Hreadys.
  rewrite Hready.
  apply wrap_in_range. unfold GoInt.in_range, GoInt.MinInt, GoInt.MaxInt in *. lia.
Qed.

(** X9.  When no listed node carries more than one Ready condition of
    status True (and the node list fits a Go slice), every role record the
    node-role command renders has as [TotalReadyNodeCount] the number of
    ready nodes among the listed nodes of the role, which is at most
    [TotalNodeCount]. *)
Theorem role_ready_nodes k clientset s nodes m names role d :
  fair s ->
  CreateClientSet k = Ok clientset ->
  NodesList clientset = Listed nodes ->
  GoInt.len nodes <= GoInt.MaxInt ->
  (forall node, node ∈ nodes -> (readyConditions node <= 1)%nat) ->
  nodeRoleRunE k s = Rendered (m, names) ->
  m !! role = Some d ->
  TotalReadyNodeCount d = GoInt.len (List.filter isReady (members role nodes))
  /\ 0 <= TotalReadyNodeCount d <= TotalNodeCount d.
Proof.
  intros Hfair Hclient Hnodes Hfit Hone Hrun Hrole.
  rewrite (rendered_ready k clientset s nodes m names role d
             Hfair Hclient Hnodes Hfit Hone Hrun Hrole).
  destruct (role_record_closed_form k clientset s nodes m names role d
              Hfair Hclient Hnodes Hrun Hrole) as (_ & (Hcount & _) & _).
  pose proof (members_le role nodes) as Hmembers.
  pose proof (filter_len_le isReady (members role nodes)) as Hreadys.
  rewrite Hcount.
  rewrite wrap_in_range by (unfold GoInt.in_range, GoInt.MinInt, GoInt.MaxInt in *; lia).
  split; [reflexivity|lia].
Qed.

Lemma role_ready_nodes_witness :
  exists m names d,
    nodeRoleRunE (apiserver [unreadyNode; unreadyNode] []) backwards = Rendered (m, names)
    /\ m !! "worker" = Some d
    /\ TotalReadyNodeCount d = 0.
Proof.
  destruct (nodeRoleRunE (apiserver [unreadyNode; unreadyNode] []) backwards)
    as [[m names]|e] eqn:Hrun; [|vm_compute in Hrun; discriminate Hrun].
  destruct (m !! "worker") as [d|] eqn:Hrole.
  - destruct (role_ready_nodes (apiserver [unreadyNode; unreadyNode] [])
                {| NodesList := Listed [unreadyNode; unreadyNode];
                   PodsList := apiPodsList [] |}
                backwards [unreadyNode; unreadyNode] m names "worker" d
                fair_backwards eq_refl eq_refl) as (Hready & _);
      [vm_compute; discriminate| |exact Hrun|exact Hrole|].
    + intros node Hnode.
      repeat (apply elem_of_cons in Hnode as [-> | Hnode]; [vm_compute; lia|]).
      inversion Hnode.
    + exists m, names, d. split; [reflexivity|]. split; [exact Hrole|].
      rewrite Hready. vm_compute. reflexivity.
  - exfalso. vm_compute in Hrun. injection Hrun as <- _.
    vm_compute in Hrole. discriminate Hrole.
Defined.

(** ** The two commands side by side *)




(** ** Request and limit sums, container by container *)

Lemma sumPods_from pods s0 :
  foldl (fun s pod => foldl sumContainer s (Containers pod)) s0 pods = {|
    totalRequestsCPU :=
      totalRequestsCPU s0 + sumQuantity (fun c => Cpu (Requests c)) (containersOf pods);
    totalLimitssCPU :=
      totalLimitssCPU s0 + sumQuantity (fun c => Cpu (Limits c)) (containersOf pods);
    totalRequestsMemory :=
      totalRequestsMemory s0 + sumQuantity (fun c => Memory (Requests c)) (containersOf pods);
    totalLimitsMemory :=
      totalLimitsMemory s0 + sumQuantity (fun c => Memory (Limits c)) (containersOf pods);
  |}.
Proof.
  unfold containersOf. revert s0. induction pods as [|pod pods IH]; intros s0.
  - destruct s0; simpl. unfold Quantity.zero. f_equal; lia.
  - cbn [foldl flat_map]. rewrite IH. clear IH.
    generalize (flat_map Containers pods) as rest. intros rest.
    generalize (Containers pod) as cs. intros cs. revert s0.
    induction cs as [|c cs IH]; intros s0.
    + reflexivity.
    + cbn [foldl app]. rewrite IH. simpl. unfold Quantity.Add. f_equal; lia.
Qed.

(** X11.  For any pod listing, the four sums the node-role command takes
    for a node are the sums over all containers of all listed pods of the
    container's CPU and memory requests and limits (a pod without
    containers, or a container without the entry, adds nothing), and the
    cluster command accumulates the very same four sums from the same
    listing. *)
Theorem request_sums_over_containers pods :
  (totalRequestsCPU (sumPods pods)
   = sumQuantity (fun c => Cpu (Requests c)) (containersOf pods)
   /\ totalLimitssCPU (sumPods pods)
      = sumQuantity (fun c => Cpu (Limits c)) (containersOf pods)
   /\ totalRequestsMemory (sumPods pods)
      = sumQuantity (fun c => Memory (Requests c)) (containersOf pods)
   /\ totalLimitsMemory (sumPods pods)
      = sumQuantity (fun c => Memory (Limits c)) (containersOf pods))
  /\ (TotalRequestsCPU (clusterPods newClusterCapacityData pods)
      = totalRequestsCPU (sumPods pods)
      /\ TotalLimitsCPU (clusterPods newClusterCapacityData pods)
         = totalLimitssCPU (sumPods pods)
      /\ TotalRequestsMemory (clusterPods newClusterCapacityData pods)
         = totalRequestsMemory (sumPods pods)
      /\ TotalLimitsMemory (clusterPods newClusterCapacityData pods)
         = totalLimitsMemory (sumPods pods)).
Proof.
  unfold sumPods. rewrite sumPods_from, clusterPods_eq. repeat split.
Qed.

(** ** The order of the node listing *)

Lemma ClusterCapacityData_ext d d' :
  TotalNodeCount d = TotalNodeCount d' ->
  TotalReadyNodeCount d = TotalReadyNodeCount d' ->
  TotalUnreadyNodeCount d = TotalUnreadyNodeCount d' ->
  TotalUnschedulableNodeCount d = TotalUnschedulableNodeCount d' ->
  TotalPodCount d = TotalPodCount d' ->
  TotalNonTermPodCount d = TotalNonTermPodCount d' ->
  TotalCapacityPods d = TotalCapacityPods d' ->
  TotalCapacityCPU d = TotalCapacityCPU d' ->
  TotalCapacityMemory d = TotalCapacityMemory d' ->
  TotalAllocatablePods d = TotalAllocatablePods d' ->
  TotalAllocatableCPU d = TotalAllocatableCPU d' ->
  TotalAllocatableMemory d = TotalAllocatableMemory d' ->
  TotalRequestsCPU d = TotalRequestsCPU d' ->
  TotalLimitsCPU d = TotalLimitsCPU d' ->
  TotalRequestsMemory d = TotalRequestsMemory d' ->
  TotalLimitsMemory d = TotalLimitsMemory d' ->
  TotalAvailablePods d = TotalAvailablePods d' ->
  TotalAvailableCPU d = TotalAvailableCPU d' ->
  TotalAvailableMemory d = TotalAvailableMemory d' ->
  d = d'.
Proof. destruct d, d'; cbn. intros. subst. reflexivity. Qed.

Lemma sumNodes_perm g nodes nodes' :
  nodes ≡ₚ nodes' -> sumNodes g nodes = sumNodes g nodes'.
Proof.
  unfold sumNodes. induction 1 as [|x l l' _ IH|x y l|l l' l'' _ IH1 _ IH2]; cbn [foldr];
    [reflexivity|rewrite IH; reflexivity|lia|congruence].
Qed.

Lemma sumNodes_ext g g' nodes :
  (forall node, g node = g' node) -> sumNodes g nodes = sumNodes g' nodes.
Proof.
  intros Hext. unfold sumNodes. induction nodes as [|node nodes IH]; cbn [foldr];
    [reflexivity|]. rewrite IH, Hext. reflexivity.
Qed.

Lemma filter_perm {A} (p : A -> bool) (l l' : list A) :
  l ≡ₚ l' -> List.filter p l ≡ₚ List.filter p l'.
Proof.
  induction 1 as [|x l l' _ IH|x y l|l l' l'' _ IH1 _ IH2]; cbn [List.filter].
  - reflexivity.
  - destruct (p x); [apply perm_skip|]; exact IH.
  - destruct (p x), (p y); try reflexivity. apply perm_swap.
  - etransitivity; eassumption.
Qed.

Lemma len_perm {A} (l l' : list A) : l ≡ₚ l' -> GoInt.len l = GoInt.len l'.
Proof. intros Hperm. unfold GoInt.len. rewrite (Permutation_length Hperm). reflexivity. Qed.

Lemma readyConditionsTotal_perm nodes nodes' :
  nodes ≡ₚ nodes' -> readyConditionsTotal nodes = readyConditionsTotal nodes'.
Proof.
  unfold readyConditionsTotal.
  induction 1 as [|x l l' _ IH|x y l|l l' l'' _ IH1 _ IH2]; cbn [map];
    [reflexivity| | |congruence].
  - change (list_sum (?a :: ?b)) with (a + list_sum b)%nat. rewrite IH. reflexivity.
  - change (list_sum (?a :: ?b :: ?c)) with (a + (b + list_sum c))%nat. lia.
Qed.

Lemma clusterNodes_perm nodes nodes' :
  nodes ≡ₚ nodes' ->
  foldl clusterNode newClusterCapacityData nodes
  = foldl clusterNode newClusterCapacityData nodes'.
Proof.
  intros Hperm.
  destruct (clusterNodes_counts nodes newClusterCapacityData 0 0) as [Hc Hr];
    [reflexivity|reflexivity|].
  destruct (clusterNodes_counts nodes' newClusterCapacityData 0 0) as [Hc' Hr'];
    [reflexivity|reflexivity|].
  destruct (clusterNodes_untouched nodes newClusterCapacityData)
    as (H1 & H2 & H3 & H4 & H5 & H6 & H7 & H8 & H9 & H10).
  destruct (clusterNodes_untouched nodes' newClusterCapacityData)
    as (H1' & H2' & H3' & H4' & H5' & H6' & H7' & H8' & H9' & H10').
  cbn zeta in *.
  apply ClusterCapacityData_ext; try congruence.
  - rewrite Hc, Hc', (len_perm _ _ Hperm). reflexivity.
  - rewrite Hr, Hr', (readyConditionsTotal_perm _ _ Hperm). reflexivity.
  - rewrite !(clusterNodes_unschedulable _ newClusterCapacityData 0) by reflexivity.
    rewrite (len_perm _ _ (filter_perm Unschedulable _ _ Hperm)). reflexivity.
  - rewrite !(clusterNodes_sum TotalCapacityPods (fun node => Pods (Capacity node)))
      by reflexivity. rewrite (sumNodes_perm _ _ _ Hperm). reflexivity.
  - rewrite !(clusterNodes_sum TotalCapacityCPU (fun node => Cpu (Capacity node)))
      by reflexivity. rewrite (sumNodes_perm _ _ _ Hperm). reflexivity.
  - rewrite !(clusterNodes_sum TotalCapacityMemory (fun node => Memory (Capacity node)))
      by reflexivity. rewrite (sumNodes_perm _ _ _ Hperm). reflexivity.
  - rewrite !(clusterNodes_sum TotalAllocatablePods (fun node => Pods (Allocatable node)))
      by reflexivity. rewrite (sumNodes_perm _ _ _ Hperm). reflexivity.
  - rewrite !(clusterNodes_sum TotalAllocatableCPU (fun node => Cpu (Allocatable node)))
      by reflexivity. rewrite (sumNodes_perm _ _ _ Hperm). reflexivity.
  - rewrite !(clusterNodes_sum TotalAllocatableMemory (fun node => Memory (Allocatable node)))
      by reflexivity. rewrite (sumNodes_perm _ _ _ Hperm). reflexivity.
Qed.

(** X12.  The cluster command does not depend on the order in which the
    node listing returns the nodes: two runs whose collaborators answer
    alike, except that one node listing is a reordering of the other, have
    the same outcome. *)
Theorem cluster_node_order_irrelevant k k' clientset clientset' nodes nodes' :
  CreateClientSet k = Ok clientset ->
  CreateClientSet k' = Ok clientset' ->
  NodesList clientset = Listed nodes ->
  NodesList clientset' = Listed nodes' ->
  nodes ≡ₚ nodes' ->
  (forall selector, ParseSelector k selector = ParseSelector k' selector) ->
  (forall selector, PodsList clientset selector = PodsList clientset' selector) ->
  clusterRunE k = clusterRunE k'.
Proof.
  intros Hclient Hclient' Hnodes Hnodes' Hperm Hparse Hpods.
  unfold clusterRunE. rewrite Hclient, Hclient', Hnodes, Hnodes', Hparse.
  destruct (ParseSelector k' nonTerminatedSelector) as [sel|]; [|reflexivity].
  rewrite !Hpods, (clusterNodes_perm nodes nodes' Hperm). reflexivity.
Qed.

Lemma cluster_node_order_irrelevant_witness :
  clusterRunE (apiserver [scenarioNode; unreadyNode; readyTwice] [scenarioPod])
  = clusterRunE (apiserver [readyTwice; scenarioNode; unreadyNode] [scenarioPod]).
Proof.
  apply (cluster_node_order_irrelevant
           (apiserver [scenarioNode; unreadyNode; readyTwice] [scenarioPod])
           (apiserver [readyTwice; scenarioNode; unreadyNode] [scenarioPod])
           {| NodesList := Listed [scenarioNode; unreadyNode; readyTwice];
              PodsList := apiPodsList [scenarioPod] |}
           {| NodesList := Listed [readyTwice; scenarioNode; unreadyNode];
              PodsList := apiPodsList [scenarioPod] |}
           [scenarioNode; unreadyNode; readyTwice] [readyTwice; scenarioNode; unreadyNode]
           eq_refl eq_refl eq_refl eq_refl).
  - change [readyTwice; scenarioNode; unreadyNode]
      with ([readyTwice] ++ [scenarioNode; unreadyNode])%list.
    change [scenarioNode; unreadyNode; readyTwice]
      with ([scenarioNode; unreadyNode] ++ [readyTwice])%list.
    apply Permutation_app_comm.
  - reflexivity.
  - reflexivity.
Defined.

Lemma rendered_available k s m names role d :
  nodeRoleRunE k s = Rendered (m, names) ->
  m !! role = Some d ->
  TotalAvailablePods d
  = GoInt.sub (Quantity.Value (TotalAllocatablePods d)) (TotalNonTermPodCount d)
  /\ TotalAvailableCPU d = Quantity.Sub (TotalAllocatableCPU d) (TotalRequestsCPU d)
  /\ TotalAvailableMemory d
     = Quantity.Sub (TotalAllocatableMemory d) (TotalRequestsMemory d).
Proof.
  intros Hrun Hrole.
  destruct (nodeRoleRunE_inv k s m names Hrun)
    as (clientset & nodes & st & _ & _ & _ & _ & -> & _).
  rewrite lookup_fmap in Hrole.
  destruct (nodeRoleCapacityData st !! role) as [d0|]; [|discriminate].
  injection Hrole as <-. repeat split.
Qed.

Lemma rendered_names_sorted k s m names :
  nodeRoleRunE k s = Rendered (m, names) ->
  StronglySorted string_le names /\ NoDup names.
Proof.
  intros Hrun.
  destruct (nodeRoleRunE_inv k s m names Hrun)
    as (clientset & nodes & st & _ & _ & _ & [Hnodup _] & _ & ->).
  split; [apply sortStrings_sorted|]. rewrite sortStrings_perm. exact Hnodup.
Qed.

Lemma podsOf_answers k1 clientset1 k2 clientset2 node :
  (forall selector, ParseSelector k1 selector = ParseSelector k2 selector) ->
  (forall selector, PodsList clientset1 selector = PodsList clientset2 selector) ->
  podsOf k1 clientset1 node = podsOf k2 clientset2 node.
Proof.
  intros Hparse Hpods. unfold podsOf.
  rewrite (nodePods_answers k1 clientset1 k2 clientset2 node Hparse Hpods). reflexivity.
Qed.

Lemma members_perm role nodes nodes' :
  nodes ≡ₚ nodes' -> members role nodes ≡ₚ members role nodes'.
Proof. apply filter_perm. Qed.

(** Two rendered records of one role, from two runs that differ in the
    order of the node listing and in the visiting orders only. *)
Lemma role_record_perm k k' clientset clientset' s s' nodes nodes' m names m' names' role d d' :
  fair s -> fair s' ->
  CreateClientSet k = Ok clientset ->
  CreateClientSet k' = Ok clientset' ->
  NodesList clientset = Listed nodes ->
  NodesList clientset' = Listed nodes' ->
  nodes ≡ₚ nodes' ->
  (forall selector, ParseSelector k selector = ParseSelector k' selector) ->
  (forall selector, PodsList clientset selector = PodsList clientset' selector) ->
  GoInt.len nodes <= GoInt.MaxInt ->
  (forall node, node ∈ nodes -> (readyConditions node <= 1)%nat) ->
  nodeRoleRunE k s = Rendered (m, names) ->
  nodeRoleRunE k' s' = Rendered (m', names') ->
  m !! role = Some d ->
  m' !! role = Some d' ->
  d = d'.
Proof.
  intros Hfair Hfair' Hclient Hclient' Hnodes Hnodes' Hperm Hparse Hpods Hfit Hone
    Hrun Hrun' Hrole Hrole'.
  pose proof (members_perm role nodes nodes' Hperm) as HM.
  assert (GoInt.len nodes' <= GoInt.MaxInt) as Hfit'
    by (rewrite <- (len_perm _ _ Hperm); exact Hfit).
  assert (forall node, node ∈ nodes' -> (readyConditions node <= 1)%nat) as Hone'
    by (intros node Hin; apply Hone; rewrite Hperm; exact Hin).
  destruct (role_record_closed_form k clientset s nodes m names role d
              Hfair Hclient Hnodes Hrun Hrole)
    as (_ & (Hc & Hu & Hp & Hn) & (Hcp & Hcc & Hcm & Hap & Hac & Ham)
        & (Hrc & Hlc & Hrm & Hlm)).
  destruct (role_record_closed_form k' clientset' s' nodes' m' names' role d'
              Hfair' Hclient' Hnodes' Hrun' Hrole')
    as (_ & (Hc' & Hu' & Hp' & Hn') & (Hcp' & Hcc' & Hcm' & Hap' & Hac' & Ham')
        & (Hrc' & Hlc' & Hrm' & Hlm')).
  pose proof (rendered_ready k clientset s nodes m names role d
                Hfair Hclient Hnodes Hfit Hone Hrun Hrole) as Hr.
  pose proof (rendered_ready k' clientset' s' nodes' m' names' role d'
                Hfair' Hclient' Hnodes' Hfit' Hone' Hrun' Hrole') as Hr'.
  destruct (rendered_available k s m names role d Hrun Hrole) as (Hvp & Hvc & Hvm).
  destruct (rendered_available k' s' m' names' role d' Hrun' Hrole') as (Hvp' & Hvc' & Hvm').
  assert (forall g : NodePods -> Z,
             sumNodes (fun node => g (podsOf k clientset node)) (members role nodes)
             = sumNodes (fun node => g (podsOf k' clientset' node)) (members role nodes'))
    as Hsums.
  { intros g. rewrite (sumNodes_perm _ _ _ HM). apply sumNodes_ext. intros node.
    rewrite (podsOf_answers k clientset k' clientset' node Hparse Hpods). reflexivity. }
  assert (TotalNodeCount d = TotalNodeCount d') as Ecount
    by (rewrite Hc, Hc', (len_perm _ _ HM); reflexivity).
  assert (TotalReadyNodeCount d = TotalReadyNodeCount d') as Eready
    by (rewrite Hr, Hr', (len_perm _ _ (filter_perm isReady _ _ HM)); reflexivity).
  assert (TotalNonTermPodCount d = TotalNonTermPodCount d') as Enonterm
    by (rewrite Hn, Hn', (Hsums nonTerminatedPodCount); reflexivity).
  assert (TotalAllocatablePods d = TotalAllocatablePods d') as Eap
    by (rewrite Hap, Hap', (sumNodes_perm _ _ _ HM); reflexivity).
  assert (TotalAllocatableCPU d = TotalAllocatableCPU d') as Eac
    by (rewrite Hac, Hac', (sumNodes_perm _ _ _ HM); reflexivity).
  assert (TotalAllocatableMemory d = TotalAllocatableMemory d') as Eam
    by (rewrite Ham, Ham', (sumNodes_perm _ _ _ HM); reflexivity).
  assert (TotalRequestsCPU d = TotalRequestsCPU d') as Erc
    by (rewrite Hrc, Hrc', (Hsums (fun p => totalRequestsCPU (nodeSums p))); reflexivity).
  assert (TotalRequestsMemory d = TotalRequestsMemory d') as Erm
    by (rewrite Hrm, Hrm', (Hsums (fun p => totalRequestsMemory (nodeSums p))); reflexivity).
  apply ClusterCapacityData_ext; try assumption.
  - pose proof (rendered_sized
                  (fun d0 => TotalUnreadyNodeCount d0 = 0)
                  (fun d0 => TotalUnreadyNodeCount d0
                             = GoInt.sub (TotalNodeCount d0) (TotalReadyNodeCount d0))
                  roleNew_unready_zero (fun _ _ _ _ _ => eq_refl)
                  (fun _ H => H) (fun _ H => H)
                  k clientset s nodes m names role Hfair Hclient Hnodes Hrun) as Hsized.
    pose proof (rendered_sized
                  (fun d0 => TotalUnreadyNodeCount d0 = 0)
                  (fun d0 => TotalUnreadyNodeCount d0
                             = GoInt.sub (TotalNodeCount d0) (TotalReadyNodeCount d0))
                  roleNew_unready_zero (fun _ _ _ _ _ => eq_refl)
                  (fun _ H => H) (fun _ H => H)
                  k' clientset' s' nodes' m' names' role Hfair' Hclient' Hnodes' Hrun')
      as Hsized'.
    rewrite Hrole in Hsized. rewrite Hrole' in Hsized'.
    rewrite <- (Permutation_length HM) in Hsized'. cbn [sized] in *.
    destruct Hsized as [[Hsize Hzero]|[Hsize Hdiff]],
             Hsized' as [[Hsize' Hzero']|[Hsize' Hdiff']]; try lia.
    rewrite Hdiff, Hdiff', Ecount, Eready. reflexivity.
  - rewrite Hu, Hu', (len_perm _ _ (filter_perm Unschedulable _ _ HM)). reflexivity.
  - rewrite Hp, Hp', (Hsums totalPodCount). reflexivity.
  - rewrite Hcp, Hcp', (sumNodes_perm _ _ _ HM). reflexivity.
  - rewrite Hcc, Hcc', (sumNodes_perm _ _ _ HM). reflexivity.
  - rewrite Hcm, Hcm', (sumNodes_perm _ _ _ HM). reflexivity.
  - rewrite Hlc, Hlc', (Hsums (fun p => totalLimitssCPU (nodeSums p))). reflexivity.
  - rewrite Hlm, Hlm', (Hsums (fun p => totalLimitsMemory (nodeSums p))). reflexivity.
  - rewrite Hvp, Hvp', Eap, Enonterm. reflexivity.
  - rewrite Hvc, Hvc', Eac, Erc. reflexivity.
  - rewrite Hvm, Hvm', Eam, Erm. reflexivity.
Qed.

(** X13.  When no listed node carries more than one Ready condition of
    status True (node list within a Go slice), the report of the node-role
    command does not depend on the order in which the node listing returns
    the nodes, nor on the order Go visits its maps in: if one run renders,
    a run whose node listing is a reordering, all else answered alike,
    renders the same records and the same role names. *)
Theorem role_node_order_irrelevant k k' clientset clientset' s s' nodes nodes' m names :
  fair s -> fair s' ->
  CreateClientSet k = Ok clientset ->
  CreateClientSet k' = Ok clientset' ->
  NodesList clientset = Listed nodes ->
  NodesList clientset' = Listed nodes' ->
  nodes ≡ₚ nodes' ->
  (forall selector, ParseSelector k selector = ParseSelector k' selector) ->
  (forall selector, PodsList clientset selector = PodsList clientset' selector) ->
  GoInt.len nodes <= GoInt.MaxInt ->
  (forall node, node ∈ nodes -> (readyConditions node <= 1)%nat) ->
  nodeRoleRunE k s = Rendered (m, names) ->
  nodeRoleRunE k' s' = Rendered (m, names).
Proof.
  intros Hfair Hfair' Hclient Hclient' Hnodes Hnodes' Hperm Hparse Hpods Hfit Hone Hrun.
  assert (exists m' names', nodeRoleRunE k' s' = Rendered (m', names'))
    as (m' & names' & Hrun').
  { destruct (nodeRoleRunE_inv k s m names Hrun)
      as (c0 & n0 & st & Hc0 & Hn0 & Hloop & _).
    rewrite Hclient in Hc0. injection Hc0 as <-. rewrite Hnodes in Hn0. injection Hn0 as <-.
    unfold nodeRoleRunE. rewrite Hclient', Hnodes'.
    destruct (nodeRoleLoop_ok k' clientset' s' nodes') with (i := 0%nat) (st := newRoleState)
      as [st' ->]; [|eauto].
    intros node Hin. rewrite <- Hperm in Hin.
    pose proof (nodeRoleLoop_ok_inv k clientset s nodes _ _ _ Hloop node Hin) as [H1 H2].
    unfold selectorsParse. rewrite <- !Hparse. split; assumption. }
  rewrite Hrun'. f_equal.
  assert (forall role, is_Some (m !! role) <-> is_Some (m' !! role)) as Hdom.
  { intros role.
    rewrite (rendered_record_iff k clientset s nodes m names role Hfair Hclient Hnodes Hrun).
    rewrite (rendered_record_iff k' clientset' s' nodes' m' names' role
               Hfair' Hclient' Hnodes' Hrun').
    pose proof (Permutation_length (members_perm role nodes nodes' Hperm)) as Hlen.
    destruct (members role nodes), (members role nodes'); cbn [length] in Hlen;
      split; congruence. }
  assert (m' = m) as ->.
  { apply map_eq. intros role. specialize (Hdom role).
    destruct (m !! role) as [d|] eqn:Hrole, (m' !! role) as [d'|] eqn:Hrole'.
    - f_equal. symmetry.
      exact (role_record_perm k k' clientset clientset' s s' nodes nodes' m names m' names'
               role d d' Hfair Hfair' Hclient Hclient' Hnodes Hnodes' Hperm Hparse Hpods
               Hfit Hone Hrun Hrun' Hrole Hrole').
    - exfalso. destruct (proj1 Hdom ltac:(eauto)) as [x Hx]. discriminate Hx.
    - exfalso. destruct (proj2 Hdom ltac:(eauto)) as [x Hx]. discriminate Hx.
    - reflexivity. }
  f_equal.
  destruct (rendered_names_sorted k s m names Hrun) as [Hsorted Hnodup].
  destruct (rendered_names_sorted k' s' m names' Hrun') as [Hsorted' Hnodup'].
  apply (StronglySorted_unique string_le); [assumption|assumption|].
  apply NoDup_Permutation; [assumption|assumption|].
  intros role. rewrite (rendered_names k s m names Hrun role).
  rewrite (rendered_names k' s' m names' Hrun' role). reflexivity.
Qed.

Lemma role_node_order_irrelevant_witness :
  exists m names,
    nodeRoleRunE threeNodeCluster inOrder = Rendered (m, names)
    /\ nodeRoleRunE reorderedCluster backwards = Rendered (m, names).
Proof.
  destruct (nodeRoleRunE threeNodeCluster inOrder) as [[m names]|e] eqn:Hrun;
    [|vm_compute in Hrun; discriminate Hrun].
  exists m, names. split; [reflexivity|].
  apply (role_node_order_irrelevant threeNodeCluster reorderedCluster
           {| NodesList := Listed threeNodes; PodsList := apiPodsList _ |}
           {| NodesList := Listed (rev threeNodes); PodsList := apiPodsList _ |}
           inOrder backwards threeNodes (rev threeNodes) m names
           fair_inOrder fair_backwards eq_refl eq_refl eq_refl eq_refl).
  - apply Permutation_rev.
  - reflexivity.
  - reflexivity.
  - vm_compute. discriminate.
  - intros node Hnode.
    repeat (apply elem_of_cons in Hnode as [-> | Hnode]; [vm_compute; lia|]).
    inversion Hnode.
  - exact Hrun.
Defined.
